(** * HTTP/2 engine core: stream state machine, flow control, settings, headers

    A shallow embedding of the Go sources of the per-stream state machine
    ([stream.transition], [dir.transition]), of the flow controllers
    ([flowController], [remoteFlowController], [allocateBytes]) and of
    [util.go] (settings store, header canonicalisation), followed by the
    properties the specification states about them.

    Conventions
    - Go [int] (64 bit) values are [Z]; none of the operations modelled
      here can leave the 64 bit range from protocol-sized inputs, and
      conversions to [uint32] are written out with [Z.modulo].
    - Go [string] is a byte string: Rocq's [string] of 8 bit [ascii].
    - Mutable receivers become explicit state passing; a method returns the
      new state next to its Go result.
    - [error] results are [option error]; [None] is Go's [nil]. *)

From Stdlib Require Import ZArith Lia Bool List String Ascii.
From stdpp Require Import base decidable option list gmap strings.

Import ListNotations.
Open Scope Z_scope.

(** ** Shared vocabulary *)

(** [type StreamState int32] with its seven [iota] constants. *)
Inductive StreamState : Type :=
| StateIdle
| StateReservedLocal
| StateReservedRemote
| StateOpen
| StateHalfClosedLocal
| StateHalfClosedRemote
| StateClosed.

(** [type FrameType uint8]: the ten frame types the protocol names (the
    cases of [FrameType.String]); any other code is [FrameUnknown]. *)
Inductive FrameType : Type :=
| FrameData
| FrameHeaders
| FramePriority
| FrameRSTStream
| FrameSettings
| FramePushPromise
| FramePing
| FrameGoAway
| FrameWindowUpdate
| FrameContinuation
| FrameUnknown (code : Z).

(** [type dir int]: [recv] and [send]. *)
Inductive dir : Type := recv | send.

(** The error codes of [ErrCode.String]. *)
Inductive ErrCode : Type :=
| ErrCodeNo
| ErrCodeProtocol
| ErrCodeInternal
| ErrCodeFlowControl
| ErrCodeSettingsTimeout
| ErrCodeStreamClosed
| ErrCodeFrameSize
| ErrCodeRefusedStream
| ErrCodeCancel
| ErrCodeCompression
| ErrCodeConnect
| ErrCodeEnhanceYourCalm
| ErrCodeInadequateSecurity
| ErrCodeHTTP11Required.

(** The texts the modelled functions wrap into their errors. *)
Inductive errText : Type :=
| AlreadyClosed (streamID : Z)      (* "stream %d already closed" *)
| BadStreamState (st : StreamState) (* "bad stream state %s" *)
| WindowLimitExceeded               (* "window size limit exceeded" *)
| TooManyBytes                      (* "attempting to return too many bytes" *)
| WindowOverflow.                   (* "window size overflow" *)

(** Go's [error] values produced by the modelled code: the sentinel
    [ignoreFrame], a bare [fmt.Errorf]/[errors.New] error, [StreamError]
    and [ConnError]. *)
Inductive error : Type :=
| ignoreFrame
| PlainError (e : errText)
| StreamError (e : errText) (code : ErrCode) (streamID : Z)
| ConnError (e : errText) (code : ErrCode).

#[global] Instance StreamState_eq_dec : EqDecision StreamState.
Proof. solve_decision. Defined.

#[global] Instance FrameType_eq_dec : EqDecision FrameType.
Proof. solve_decision. Defined.

#[global] Instance dir_eq_dec : EqDecision dir.
Proof. solve_decision. Defined.

#[global] Instance ErrCode_eq_dec : EqDecision ErrCode.
Proof. solve_decision. Defined.

(** ** The directional transition table *)

Module Dir.

(** The receive half of the outer [switch] of [dir.transition]: [Some to]
    when control reaches [ok = true], [None] where the source takes a bare
    [return] (with [to = from] and [ok = false]). *)
Definition recvTable (from : StreamState) (frameType : FrameType) : option StreamState :=
  match from with
  | StateIdle =>
      match frameType with
      | FrameHeaders => Some StateOpen
      | FramePriority => Some from
      | FramePushPromise => Some StateReservedRemote
      | _ => None
      end
  | StateReservedLocal | StateHalfClosedRemote =>
      match frameType with
      | FramePriority | FrameWindowUpdate => Some from
      | FrameRSTStream => Some StateClosed
      | _ => None
      end
  | StateReservedRemote =>
      match frameType with
      | FrameHeaders => Some StateHalfClosedLocal
      | FramePriority => Some from
      | FrameRSTStream => Some StateClosed
      | _ => None
      end
  | StateOpen | StateHalfClosedLocal =>
      match frameType with
      | FrameRSTStream => Some StateClosed
      | _ => Some from
      end
  | StateClosed =>
      match frameType with
      | FramePriority => Some from
      | _ => None
      end
  end.

(** The send half of the same [switch]. *)
Definition sendTable (from : StreamState) (frameType : FrameType) : option StreamState :=
  match from with
  | StateIdle =>
      match frameType with
      | FrameHeaders => Some StateOpen
      | FramePriority => Some from
      | FramePushPromise => Some StateReservedLocal
      | _ => None
      end
  | StateReservedLocal =>
      match frameType with
      | FrameHeaders => Some StateHalfClosedRemote
      | FramePriority => Some from
      | FrameRSTStream => Some StateClosed
      | _ => None
      end
  | StateReservedRemote | StateHalfClosedLocal =>
      match frameType with
      | FramePriority | FrameWindowUpdate => Some from
      | FrameRSTStream => Some StateClosed
      | _ => None
      end
  | StateOpen =>
      match frameType with
      | FrameRSTStream => Some StateClosed
      | _ => Some from
      end
  | StateHalfClosedRemote =>
      match frameType with
      | FrameData | FrameHeaders | FramePriority => Some from
      | FrameRSTStream => Some StateClosed
      | _ => None
      end
  | StateClosed =>
      match frameType with
      | FramePriority => Some from
      | _ => None
      end
  end.

(** The transition before END_STREAM is looked at: everything up to
    [ok = true]. *)
Definition baseTransition (d : dir) (from : StreamState) (frameType : FrameType)
  : option StreamState :=
  match d with
  | recv => recvTable from frameType
  | send => sendTable from frameType
  end.

(** The final [if endStream { switch to { ... } }] block. *)
Definition applyEndStream (d : dir) (to : StreamState) (endStream : bool) : StreamState :=
  if endStream then
    match to with
    | StateOpen =>
        match d with
        | recv => StateHalfClosedRemote
        | send => StateHalfClosedLocal
        end
    | StateHalfClosedLocal | StateHalfClosedRemote => StateClosed
    | _ => to
    end
  else to.

(** [func (dir dir) transition(from, frameType, endStream) (to, ok)]. *)
Definition transition (d : dir) (from : StreamState) (frameType : FrameType)
    (endStream : bool) : StreamState * bool :=
  match baseTransition d from frameType with
  | None => (from, false)
  | Some to => (applyEndStream d to endStream, true)
  end.

End Dir.

(** ** The stream object and its transition *)

Module Stream.

(** The fields of [struct stream] that [transition], [close] and
    [compareAndSwapState] read or write on the stream itself.  [closed] is
    a [time.Time], kept as a reading of the monotonic clock in
    nanoseconds.  The connection-side effects of [compareAndSwapState]
    (stream counters, window set-up, cancellation, registry removal) act on
    [s.conn] and are outside this record. *)
Record stream : Type := mkStream {
  id : Z;
  state : StreamState;
  resetSent : bool;
  resetReceived : bool;
  closed : Z
}.

(** Modelled from the spec: the allocation of a stream, which is outside
    the sources at hand.  A stream starts in Idle (section 4.3) with both
    reset flags unset (section 3): Go's zero values, with its id. *)
Definition newStream (streamID : Z) : stream :=
  {| id := streamID; state := StateIdle; resetSent := false;
     resetReceived := false; closed := 0 |}.

(** [time.Second] in nanoseconds, the unit of [time.Duration]. *)
Definition Second : Z := 1000000000.

(** [time.Since(s.closed) <= time.Duration(5)*time.Second] at clock
    reading [now]. *)
Definition withinGrace (now : Z) (s : stream) : bool :=
  now - closed s <=? 5 * Second.

(** [compareAndSwapState] when the swap succeeds (the sequential case:
    [from] was just loaded): the state is replaced and a first entry into
    [StateClosed] stamps [closed]. *)
Definition compareAndSwapState (now : Z) (s : stream) (from to : StreamState) : stream :=
  {| id := id s;
     state := to;
     resetSent := resetSent s;
     resetReceived := resetReceived s;
     closed := if bool_decide (to = StateClosed) && negb (bool_decide (from = StateClosed))
               then now else closed s |}.

(** The [if !ok { ... }] block of [stream.transition]: the error chosen
    for a frame the table rejects. *)
Definition rejection (now : Z) (s : stream) (d : dir) (from : StreamState)
    (frameType : FrameType) : error :=
  match d with
  | send =>
      if bool_decide (from = StateClosed) then
        if bool_decide (frameType = FrameRSTStream) then ignoreFrame
        else PlainError (AlreadyClosed (id s))
      else PlainError (BadStreamState (state s))
  | recv =>
      if resetReceived s then
        StreamError (AlreadyClosed (id s)) ErrCodeStreamClosed (id s)
      else if resetSent s then
        if withinGrace now s then ignoreFrame
        else StreamError (AlreadyClosed (id s)) ErrCodeStreamClosed (id s)
      else
        match from with
        | StateHalfClosedRemote => ConnError (AlreadyClosed (id s)) ErrCodeStreamClosed
        | StateClosed =>
            match frameType with
            | FrameRSTStream | FrameWindowUpdate =>
                if withinGrace now s then ignoreFrame
                else ConnError (AlreadyClosed (id s)) ErrCodeProtocol
            | _ => ConnError (BadStreamState (state s)) ErrCodeProtocol
            end
        | _ => ConnError (BadStreamState (state s)) ErrCodeProtocol
        end
  end.

(** [func (s *stream) transition(dir, frameType, endStream) (StreamState, error)],
    one pass of the loop with a successful swap; [now] is the clock. *)
Definition transition (now : Z) (s : stream) (d : dir) (frameType : FrameType)
    (endStream : bool) : stream * (StreamState * option error) :=
  let from := state s in
  match Dir.transition d from frameType endStream with
  | (_, false) => (s, (from, Some (rejection now s d from frameType)))
  | (to, true) =>
      let s1 := compareAndSwapState now s from to in
      let s2 :=
        if bool_decide (to = StateClosed) && bool_decide (frameType = FrameRSTStream) then
          match d with
          | recv => {| id := id s1; state := state s1; resetSent := resetSent s1;
                       resetReceived := true; closed := closed s1 |}
          | send => {| id := id s1; state := state s1; resetSent := true;
                       resetReceived := resetReceived s1; closed := closed s1 |}
          end
        else s1 in
      (s2, (to, None))
  end.

(** [func (s *stream) close()]. *)
Definition close (now : Z) (s : stream) : stream :=
  compareAndSwapState now s (state s) StateClosed.

(** A stream closed by a received RST_STREAM: HEADERS then RST_STREAM
    arrive on stream 1 at clock reading 0. *)
Definition resetByPeer : stream :=
  fst (transition 0
         (fst (transition 0 (newStream 1) recv FrameHeaders false))
         recv FrameRSTStream false).

(** A stream whose peer has finished sending: HEADERS with END_STREAM
    arrived on stream 1 at clock reading 0. *)
Definition remoteDone : stream :=
  fst (transition 0 (newStream 1) recv FrameHeaders true).

(** The streams the code can hold: a fresh stream, moved by [transition]
    and [close] at arbitrary clock readings. *)
Inductive reachable : stream -> Prop :=
| reach_new streamID : reachable (newStream streamID)
| reach_transition now s d frameType endStream :
    reachable s -> reachable (fst (transition now s d frameType endStream))
| reach_close now s : reachable s -> reachable (close now s).

End Stream.

(** ** Protocol constants *)

(** Modelled from the spec: [defaultInitialWindowSize], declared outside
    the sources at hand; section 4.1 gives INITIAL_WINDOW_SIZE the default
    65535 (section 6: initial window 65535). *)
Definition defaultInitialWindowSize : Z := 65535.

(** Modelled from the spec: [maxInitialWindowSize], declared outside the
    sources at hand; section 4.1 bounds INITIAL_WINDOW_SIZE by 2^31-1. *)
Definition maxInitialWindowSize : Z := 2 ^ 31 - 1.

(** Modelled from the spec: [maxFrameSizeLowerBound] and
    [maxFrameSizeUpperBound], declared outside the sources at hand; section
    4.1 gives MAX_FRAME_SIZE the range [16384, 16777215]. *)
Definition maxFrameSizeLowerBound : Z := 16384.
Definition maxFrameSizeUpperBound : Z := 16777215.

(** Modelled from the spec: the defaults of MAX_FRAME_SIZE (16384),
    HEADER_TABLE_SIZE (4096) and ENABLE_PUSH (1) of section 4.1, declared
    outside the sources at hand. *)
Definition defaultMaxFrameSize : Z := 16384.
Definition defaultHeaderTableSize : Z := 4096.
Definition defaultEnablePush : Z := 1.

(** Go's conversion [uint32(x)] of an [int]. *)
Definition uint32 (x : Z) : Z := x mod 2 ^ 32.

(** Go's conversion [float32(x)] of an [int], as the exact value of the
    resulting float: round to nearest, ties to even, on a 24 bit
    significand.  Integers up to 2^24 in magnitude are kept; above, the
    result is a multiple of the unit in the last place [2 ^ e]. *)
Definition float32 (x : Z) : Z :=
  let a := Z.abs x in
  let e := Z.log2 a - 23 in
  if e <=? 0 then x
  else
    let ulp := 2 ^ e in
    let q := a / ulp in
    let r := a mod ulp in
    let half := ulp / 2 in
    let q' := if (half <? r) || ((r =? half) && Z.odd q) then q + 1 else q in
    Z.sgn x * (q' * ulp).

(** ** The receive flow controller *)

Module RecvFlow.

(** [struct flowController]; the back pointer [s] is replaced by the
    stream id under which the controller is stored in [conn]. *)
Record flowController : Type := mkFlow {
  win : Z;
  winLowerBound : Z;
  winUpperBound : Z;
  processedWin : Z
}.

#[global] Instance flowController_inhabited : Inhabited flowController :=
  populate (mkFlow 0 0 0 0).

(** [&WindowUpdateFrame{c.s.id, uint32(delta)}]. *)
Record WindowUpdateFrame : Type := mkWindowUpdate {
  StreamID : Z;
  WindowSizeIncrement : Z
}.

(** What the controllers reach through [c.s.conn]: every stream's
    [recvFlow], keyed by stream id with the connection-level controller
    ([connStream.recvFlow]) under id 0, and the write queue, kept as the
    sequence of [writeQueue.add(frame, headOfQueue)] calls. *)
Record conn : Type := mkConn {
  recvFlow : gmap Z flowController;
  writeQueue : list (WindowUpdateFrame * bool)
}.

(** The receiver [c] of a method called on stream [streamID]'s controller. *)
Definition flowOf (cn : conn) (streamID : Z) : flowController :=
  recvFlow cn !!! streamID.

Definition setFlow (cn : conn) (streamID : Z) (c : flowController) : conn :=
  {| recvFlow := <[streamID := c]> (recvFlow cn); writeQueue := writeQueue cn |}.

(** [func (c *flowController) updateWindow(delta int) error]. *)
Definition updateWindow (c : flowController) (delta : Z) : flowController * option error :=
  if (0 <? delta) && (maxInitialWindowSize - delta <? win c) then
    (c, Some (PlainError WindowOverflow))
  else
    ({| win := win c + delta;
        winLowerBound := if delta <? 0 then delta else 0;
        winUpperBound := winUpperBound c;
        processedWin := processedWin c + delta |}, None).

(** [func (c *flowController) updateInitialWindow(delta int)]. *)
Definition updateInitialWindow (c : flowController) (delta : Z) : flowController :=
  let n := winUpperBound c + delta in
  let n := if n <? defaultInitialWindowSize then defaultInitialWindowSize else n in
  let n := if maxInitialWindowSize <? n then maxInitialWindowSize else n in
  let delta := n - winUpperBound c in
  {| win := win c;
     winLowerBound := winLowerBound c;
     winUpperBound := winUpperBound c + delta;
     processedWin := processedWin c |}.

(** [threshold := int(float32(c.winUpperBound) * windowUpdateRatio)] with
    [windowUpdateRatio = 0.5]: halving a float is exact and [int]
    truncates towards zero. *)
Definition threshold (c : flowController) : Z :=
  Z.quot (float32 (winUpperBound c)) 2.

(** [func (c *flowController) windowUpdate() error] on the controller of
    stream [streamID]. *)
Definition windowUpdate (streamID : Z) (cn : conn) : conn * option error :=
  let c := flowOf cn streamID in
  if winUpperBound c <=? 0 then (cn, None)
  else if threshold c <? processedWin c then (cn, None)
  else
    let delta := winUpperBound c - processedWin c in
    match updateWindow c delta with
    | (_, Some _) => (cn, Some (ConnError TooManyBytes ErrCodeInternal))
    | (c', None) =>
        ({| recvFlow := <[streamID := c']> (recvFlow cn);
            writeQueue := writeQueue cn ++ [(mkWindowUpdate streamID (uint32 delta), true)] |},
         None)
    end.

(** The error of the receiver's own level: [ConnError] on the connection
    controller, [StreamError] otherwise. *)
Definition levelError (streamID : Z) (e : errText) (code : ErrCode) : error :=
  if streamID =? 0 then ConnError e code else StreamError e code streamID.

(** The body of [consumeBytes] after the delegation to the connection
    controller: [c.win -= n] and the lower-bound check. *)
Definition consumeOwn (streamID : Z) (n : Z) (cn : conn) : conn * option error :=
  let c := flowOf cn streamID in
  let c' := {| win := win c - n; winLowerBound := winLowerBound c;
               winUpperBound := winUpperBound c; processedWin := processedWin c |} in
  (setFlow cn streamID c',
   if win c' <? winLowerBound c' then
     Some (levelError streamID WindowLimitExceeded ErrCodeFlowControl)
   else None).

(** [func (c *flowController) consumeBytes(n int) error].  The method calls
    itself once, on [c.s.conn.connStream.recvFlow], when [c.s.id != 0];
    that inner call has id 0 and the same positive [n], so it is
    [consumeOwn 0]. *)
Definition consumeBytes (streamID : Z) (n : Z) (cn : conn) : conn * option error :=
  if n <=? 0 then (cn, None)
  else if negb (streamID =? 0) then
    match consumeOwn 0 n cn with
    | (cn1, Some err) => (cn1, Some err)
    | (cn1, None) => consumeOwn streamID n cn1
    end
  else consumeOwn streamID n cn.

(** The body of [returnBytes] after the delegation to the connection
    controller. *)
Definition returnOwn (streamID : Z) (delta : Z) (cn : conn) : conn * option error :=
  let c := flowOf cn streamID in
  if processedWin c - delta <? win c then
    (cn, Some (levelError streamID TooManyBytes ErrCodeInternal))
  else
    let c' := {| win := win c; winLowerBound := winLowerBound c;
                 winUpperBound := winUpperBound c;
                 processedWin := processedWin c - delta |} in
    windowUpdate streamID (setFlow cn streamID c').

(** [func (c *flowController) returnBytes(delta int) error], the inner
    call on the connection controller unfolded as in [consumeBytes]. *)
Definition returnBytes (streamID : Z) (delta : Z) (cn : conn) : conn * option error :=
  if negb (streamID =? 0) then
    match returnOwn 0 delta cn with
    | (cn1, Some err) => (cn1, Some err)
    | (cn1, None) => returnOwn streamID delta cn1
    end
  else returnOwn streamID delta cn.

(** [func (c *flowController) incrementInitialWindow(delta int) error]. *)
Definition incrementInitialWindow (streamID : Z) (delta : Z) (cn : conn)
  : conn * option error :=
  if streamID =? 0 then (cn, None)
  else
    match updateWindow (flowOf cn streamID) delta with
    | (c', None) => (setFlow cn streamID (updateInitialWindow c' delta), None)
    | (_, Some err) => (cn, Some err)
    end.

(** [func (c *flowController) incrementWindow(delta int) error]. *)
Definition incrementWindow (streamID : Z) (delta : Z) (cn : conn) : conn * option error :=
  windowUpdate streamID (setFlow cn streamID (updateInitialWindow (flowOf cn streamID) delta)).

(** [func (c *flowController) initialWindow() uint32]. *)
Definition initialWindow (c : flowController) : Z := uint32 (winUpperBound c).

(** [func (c *flowController) consumedBytes() int]. *)
Definition consumedBytes (c : flowController) : Z := processedWin c - win c.

(** Bytes handed back to the controller and not yet re-credited to the
    peer: the distance of [processedWin] below [winUpperBound], which
    [returnBytes] widens and [windowUpdate] closes. *)
Definition returnedBytes (c : flowController) : Z := winUpperBound c - processedWin c.

(** A connection whose window is used up, with one stream that still has
    credit: the default windows of 65535, all of the connection's and all
    but 100 bytes of stream 1's consumed. *)
Definition exhaustedConn : conn :=
  {| recvFlow := {[ 0 := mkFlow 0 0 65535 65535; 1 := mkFlow 100 0 65535 65535 ]};
     writeQueue := [] |}.

(** The WINDOW_UPDATE frames queued for one stream, in queue order. *)
Definition framesOf (streamID : Z) (q : list (WindowUpdateFrame * bool))
  : list (WindowUpdateFrame * bool) :=
  List.filter (fun f => StreamID (fst f) =? streamID) q.

(** A connection whose receive window of 2^24 + 3 bytes is used up, none of
    it handed back yet, and nothing queued. *)
Definition wideConn : conn :=
  {| recvFlow := {[ 0 := mkFlow 0 0 16777219 16777219 ]}; writeQueue := [] |}.

(** A connection and a stream 1 with untouched default windows. *)
Definition idleConn : conn :=
  {| recvFlow := {[ 0 := mkFlow 65535 0 65535 65535; 1 := mkFlow 65535 0 65535 65535 ]};
     writeQueue := [] |}.

(** A connection with the default window of 65535, all of it consumed and
    32767 bytes already handed back. *)
Definition halfwayConn : conn :=
  {| recvFlow := {[ 0 := mkFlow 0 0 65535 32768 ]}; writeQueue := [] |}.

End RecvFlow.

(** ** The send flow controller and two-level allocation *)

Module SendFlow.

(** Modelled from the spec: the capacity of [winCh].  The fields are those
    of [struct remoteFlowController]; the channel is made outside the
    sources at hand, and section 4.2 calls it an internal single-slot
    channel, so [winCh] is a buffer holding at most one value ([None] when
    empty). *)
Record remoteFlowController : Type := mkRemote {
  win : Z;
  winCh : option Z
}.

(** A controller before any credit was granted. *)
Definition fresh : remoteFlowController := {| win := 0; winCh := None |}.

(** Credit the controller holds on behalf of its stream: the unclaimed
    window plus what is parked in the channel for the next producer. *)
Definition credit (c : remoteFlowController) : Z :=
  win c + default 0 (winCh c).

(** The non-blocking receive [select { case n := <-c.winCh: c.win += n; default: }]
    shared by [updateWindow] (when [reset]) and [cancel]. *)
Definition drain (c : remoteFlowController) : remoteFlowController :=
  match winCh c with
  | Some n => {| win := win c + n; winCh := None |}
  | None => c
  end.

(** The non-blocking send [select { case c.winCh <- c.win: c.win = 0; default: }]. *)
Definition offer (c : remoteFlowController) : remoteFlowController :=
  match winCh c with
  | None => {| win := 0; winCh := Some (win c) |}
  | Some _ => c
  end.

(** [func (c *remoteFlowController) updateWindow(delta int, reset bool) error]
    on the controller of stream [streamID]. *)
Definition updateWindow (streamID : Z) (c : remoteFlowController) (delta : Z)
    (reset : bool) : remoteFlowController * option error :=
  if (0 <? delta) && (maxInitialWindowSize - delta <? win c) then
    (c, Some (if streamID =? 0 then ConnError WindowOverflow ErrCodeFlowControl
              else StreamError WindowOverflow ErrCodeFlowControl streamID))
  else
    let c1 := if reset then drain c else c in
    let c2 := {| win := win c1 + delta; winCh := winCh c1 |} in
    if win c2 <=? 0 then (c2, None)
    else (offer c2, None).

(** [incrementInitialWindow] and [incrementWindow]. *)
Definition incrementInitialWindow (streamID : Z) (c : remoteFlowController) (delta : Z)
  : remoteFlowController * option error :=
  updateWindow streamID c delta true.

Definition incrementWindow (streamID : Z) (c : remoteFlowController) (delta : Z)
  : remoteFlowController * option error :=
  updateWindow streamID c delta false.

(** [func (c *remoteFlowController) cancel()]. *)
Definition cancel (c : remoteFlowController) : remoteFlowController := drain c.

(** What [allocateBytes] reaches from its [stream] argument: the stream's
    own [sendFlow] (with the stream id), the connection's
    [connStream.sendFlow], and whether the two close channels have been
    closed. *)
Record sender : Type := mkSender {
  streamID : Z;
  sendFlow : remoteFlowController;
  connSendFlow : remoteFlowController;
  streamClosed : bool;
  connClosed : bool
}.

(** The outcome of one [select] of [allocateBytes].  Go picks any ready
    case; the scheduler's pick is an argument of the model. *)
Inductive selectCase : Type :=
| pickStreamClose   (* case <-stream.closeCh *)
| pickConnClose     (* case <-stream.conn.closeCh *)
| pickWindow.       (* case w = <-windowCh() *)

Inductive allocError : Type := errStreamClosed | ErrClosed.

(** [func allocateBytes(stream *stream, n int) (int, error)] under the
    picks [p1] and [p2] for its two [select]s, run without interference
    from other goroutines.  [None]: the picked case is not ready, so the
    pair of picks is not an execution (with no ready case the call
    blocks). *)
Definition allocateBytes (p1 p2 : selectCase) (st : sender) (n : Z)
  : option (sender * (Z * option allocError)) :=
  if n <=? 0 then Some (st, (0, None))
  else
    let s1 := fst (incrementWindow (streamID st) (sendFlow st) 0) in
    let st1 := {| streamID := streamID st; sendFlow := s1; connSendFlow := connSendFlow st;
                  streamClosed := streamClosed st; connClosed := connClosed st |} in
    match p1 with
    | pickStreamClose =>
        if streamClosed st then Some (st1, (0, Some errStreamClosed)) else None
    | pickConnClose =>
        if connClosed st then Some (st1, (0, Some ErrClosed)) else None
    | pickWindow =>
        match winCh s1 with
        | None => None
        | Some sw =>
            let s2 := {| win := win s1; winCh := None |} in
            let c1 := fst (incrementWindow 0 (connSendFlow st) 0) in
            let st2 := {| streamID := streamID st; sendFlow := s2; connSendFlow := c1;
                          streamClosed := streamClosed st; connClosed := connClosed st |} in
            match p2 with
            | pickStreamClose =>
                if streamClosed st then
                  Some ({| streamID := streamID st; sendFlow := s2;
                           connSendFlow := cancel c1;
                           streamClosed := streamClosed st; connClosed := connClosed st |},
                        (0, Some errStreamClosed))
                else None
            | pickConnClose =>
                if connClosed st then Some (st2, (0, Some ErrClosed)) else None
            | pickWindow =>
                match winCh c1 with
                | None => None
                | Some cw =>
                    let c2 := {| win := win c1; winCh := None |} in
                    let n := if sw <? n then sw else n in
                    let n := if cw <? n then cw else n in
                    let s3 := if n <? sw
                              then fst (incrementWindow (streamID st) s2 (sw - n)) else s2 in
                    let c3 := if n <? cw
                              then fst (incrementWindow 0 c2 (cw - n)) else c2 in
                    Some ({| streamID := streamID st; sendFlow := s3; connSendFlow := c3;
                             streamClosed := streamClosed st; connClosed := connClosed st |},
                          (n, None))
                end
            end
        end
    end.



(** Stream 1 granted 1000 bytes on a connection granted 65535. *)
Definition plainSender : sender :=
  {| streamID := 1; sendFlow := fst (incrementWindow 1 fresh 1000);
     connSendFlow := fst (incrementWindow 0 fresh 65535);
     streamClosed := false; connClosed := false |}.

End SendFlow.

(** ** util.go: the settings store *)

Module Settings.

(** [type SettingID uint16]: the six identifiers of [SettingID.String];
    any other code is [SettingUnknown]. *)
Inductive SettingID : Type :=
| SettingHeaderTableSize
| SettingEnablePush
| SettingMaxConcurrentStreams
| SettingInitialWindowSize
| SettingMaxFrameSize
| SettingMaxHeaderListSize
| SettingUnknown (code : Z).

#[global] Instance SettingID_eq_dec : EqDecision SettingID.
Proof. solve_decision. Defined.

(** [setting{id, value}], an element of [type Settings []setting]; a
    [uint32] value is a [Z]. *)
Record setting : Type := mkSetting {
  ID : SettingID;
  Val : Z
}.

(** [fmt.Errorf("invalid %s specified; %v", id, value)]. *)
Inductive settingError : Type :=
| InvalidSetting (id : SettingID) (value : Z).

(** [func (s Settings) value(id SettingID) (uint32, bool)]: the first
    entry with that id. *)
Fixpoint value (s : list setting) (id : SettingID) : option Z :=
  match s with
  | [] => None
  | x :: rest => if bool_decide (ID x = id) then Some (Val x) else value rest id
  end.

(** The [switch id] of [SetValue] that computes [ok]. *)
Definition accepted (id : SettingID) (v : Z) : bool :=
  match id with
  | SettingEnablePush => v <? 2
  | SettingInitialWindowSize => v <=? maxInitialWindowSize
  | SettingMaxFrameSize => (maxFrameSizeLowerBound <=? v) && (v <=? maxFrameSizeUpperBound)
  | _ => true
  end.

(** The [for i := 0; i < len(s); i++] loop of [SetValue]: the first entry
    with the id gets the value and the loop breaks; [None] when the loop
    ends with [ok] still false. *)
Fixpoint overwrite (s : list setting) (id : SettingID) (v : Z) : option (list setting) :=
  match s with
  | [] => None
  | x :: rest =>
      if bool_decide (ID x = id) then Some ({| ID := ID x; Val := v |} :: rest)
      else
        match overwrite rest id v with
        | Some rest' => Some (x :: rest')
        | None => None
        end
  end.

(** [func (s *Settings) SetValue(id SettingID, value uint32) error].  A
    [nil] store and an empty one are both the empty list. *)
Definition SetValue (s : list setting) (id : SettingID) (v : Z)
  : list setting * option settingError :=
  if negb (accepted id v) then (s, Some (InvalidSetting id v))
  else
    match overwrite s id v with
    | Some s' => (s', None)
    | None => (s ++ [{| ID := id; Val := v |}], None)
    end.

Section Defaults.

(** The default of MAX_CONCURRENT_STREAMS is declared outside the sources
    at hand. *)
Variable defaultMaxConcurrentStreams : Z.

(** [func (s Settings) Value(id SettingID) uint32]. *)
Definition Value (s : list setting) (id : SettingID) : Z :=
  match value s id with
  | Some v => v
  | None =>
      match id with
      | SettingHeaderTableSize => defaultHeaderTableSize
      | SettingEnablePush => defaultEnablePush
      | SettingMaxConcurrentStreams => defaultMaxConcurrentStreams
      | SettingInitialWindowSize => defaultInitialWindowSize
      | SettingMaxFrameSize => defaultMaxFrameSize
      | SettingMaxHeaderListSize => 0
      | SettingUnknown _ => 0
      end
  end.

(** The typed readers and writers of util.go. *)
Definition HeaderTableSize (s : list setting) : Z := Value s SettingHeaderTableSize.
Definition SetHeaderTableSize (s : list setting) (v : Z) := SetValue s SettingHeaderTableSize v.

(** [func (s Settings) PushEnabled() bool]: [s.Value(SettingEnablePush) != 0]. *)
Definition PushEnabled (s : list setting) : bool := negb (Value s SettingEnablePush =? 0).

(** [func (s *Settings) SetPushEnabled(enabled bool) error]: the value is 1
    when [enabled] and the zero value otherwise. *)
Definition SetPushEnabled (s : list setting) (enabled : bool) :=
  SetValue s SettingEnablePush (if enabled then 1 else 0).

Definition MaxConcurrentStreams (s : list setting) : Z := Value s SettingMaxConcurrentStreams.
Definition SetMaxConcurrentStreams (s : list setting) (v : Z) :=
  SetValue s SettingMaxConcurrentStreams v.
Definition InitialWindowSize (s : list setting) : Z := Value s SettingInitialWindowSize.
Definition SetInitialWindowSize (s : list setting) (v : Z) :=
  SetValue s SettingInitialWindowSize v.
Definition MaxFrameSize (s : list setting) : Z := Value s SettingMaxFrameSize.
Definition SetMaxFrameSize (s : list setting) (v : Z) := SetValue s SettingMaxFrameSize v.
Definition MaxHeaderListSize (s : list setting) : Z := Value s SettingMaxHeaderListSize.
Definition SetMaxHeaderListSize (s : list setting) (v : Z) :=
  SetValue s SettingMaxHeaderListSize v.

End Defaults.

(** A store in which every entry passed the check of [SetValue]. *)
Definition wellFormed (s : list setting) : Prop :=
  Forall (fun x => accepted (ID x) (Val x) = true) s.

End Settings.

(** ** util.go: header names and the header map *)

Module Header.

Open Scope string_scope.
Open Scope Z_scope.

(** The value of a byte of a Go string. *)
Definition byteVal (c : ascii) : Z := Z.of_N (N_of_ascii c).

(** ['A' <= c && c <= 'Z']. *)
Definition isUpper (c : ascii) : bool := (65 <=? byteVal c) && (byteVal c <=? 90).

(** The strings of the loop in [init] that fills [commonHeader]. *)
Definition commonHeaderNames : list string :=
  [ "Accept"; "Accept-Charset"; "Accept-Encoding"; "Accept-Language";
    "Accept-Ranges"; "Age"; "Allow"; "ALPN"; "Authentication-Info";
    "Authorization"; "Cache-Control"; "Connection"; "Content-Disposition";
    "Content-Encoding"; "Content-Language"; "Content-Length";
    "Content-Location"; "Content-Range"; "Content-Type"; "Cookie"; "DASL";
    "DAV"; "Date"; "Depth"; "Destination"; "ETag"; "Expect"; "Expires";
    "Forwarded"; "From"; "Host"; "HTTP2-Settings"; "If"; "If-Match";
    "If-Modified-Since"; "If-None-Match"; "If-Range";
    "If-Schedule-Tag-Match"; "If-Unmodified-Since"; "Last-Modified";
    "Location"; "Lock-Token"; "Max-Forwards"; "MIME-Version";
    "Ordering-Type"; "Origin"; "Overwrite"; "Position"; "Pragma"; "Prefer";
    "Preference-Applied"; "Proxy-Authenticate"; "Proxy-Authentication-Info";
    "Proxy-Authorization"; "Public-Key-Pins"; "Public-Key-Pins-Report-Only";
    "Range"; "Referer"; "Retry-After"; "Schedule-Reply"; "Schedule-Tag";
    "Sec-WebSocket-Accept"; "Sec-WebSocket-Extensions"; "Sec-WebSocket-Key";
    "Sec-WebSocket-Protocol"; "Sec-WebSocket-Version"; "Server";
    "Set-Cookie"; "SLUG"; "Strict-Transport-Security"; "TE"; "Timeout";
    "Trailer"; "Transfer-Encoding"; "Upgrade"; "User-Agent"; "Vary"; "Via";
    "WWW-Authenticate"; "Warning"; "Access-Control-Allow-Credentials";
    "Access-Control-Allow-Headers"; "Access-Control-Allow-Methods";
    "Access-Control-Allow-Origin"; "Access-Control-Max-Age";
    "Access-Control-Request-Method"; "Access-Control-Request-Headers";
    "Compliance"; "Content-Transfer-Encoding"; "Cost"; "EDIINT-Features";
    "Message-ID"; "Non-Compliance"; "Optional"; "Resolution-Hint";
    "Resolver-Location"; "SubOK"; "Subst"; "Title"; "UA-Color"; "UA-Media";
    "UA-Pixels"; "UA-Resolution"; "UA-Windowpixels"; "Version";
    "X-Device-Accept"; "X-Device-Accept-Charset"; "X-Device-Accept-Encoding";
    "X-Device-Accept-Language"; "X-Device-User-Agent" ].

(** [func validHeaderKey(v string) bool]. *)
Definition validHeaderKey (v : string) : bool :=
  match v with
  | EmptyString => false
  | _ =>
      forallb (fun c => negb ((127 <=? byteVal c) || isUpper c))
              (list_ascii_of_string v)
  end.

(** [func badHeader(key string) bool]. *)
Definition badHeader (key : string) : bool :=
  bool_decide (key ∈ ["connection"; "keep-alive"; "proxy-connection";
                      "transfer-encoding"; "host"; "upgrade"]).

(** [strings.IndexByte(s, c)]: the index of the first [c], or -1. *)
Fixpoint IndexByte (s : string) (c : ascii) : Z :=
  match s with
  | EmptyString => -1
  | String x rest =>
      if Ascii.eqb x c then 0
      else let i := IndexByte rest c in if i <? 0 then -1 else i + 1
  end.

(** [strings.Split(s, sep)] for a one-byte separator: the pieces between
    the separators, one more than there are separators. *)
Fixpoint Split (s : string) (sep : ascii) : list string :=
  match s with
  | EmptyString => [EmptyString]
  | String x rest =>
      if Ascii.eqb x sep then EmptyString :: Split rest sep
      else
        match Split rest sep with
        | piece :: pieces => String x piece :: pieces
        | [] => [String x EmptyString]
        end
  end.

(** [strings.ToLower] on a string of ASCII bytes: each of ['A'..'Z'] is
    moved to its lower-case letter. *)
Definition lowerByte (c : ascii) : ascii :=
  if isUpper c then ascii_of_N (N_of_ascii c + 32) else c.

Fixpoint lowerASCII (s : string) : string :=
  match s with
  | EmptyString => EmptyString
  | String c rest => String (lowerByte c) (lowerASCII rest)
  end.

(** [c >= utf8.RuneSelf] for no byte of [s]. *)
Definition isASCII (s : string) : bool :=
  forallb (fun c => byteVal c <? 128) (list_ascii_of_string s).

(** A string with no byte in ['A'..'Z']. *)
Definition noUpper (s : string) : bool :=
  forallb (fun c => negb (isUpper c)) (list_ascii_of_string s).

(** [type MalformedError string]. *)
Inductive MalformedError : Type := Malformed (text : string).

(** What a call leaves behind: the header map with Go's [error] result, or
    a run-time panic (an index out of range). *)
Inductive outcome : Type :=
| Returned (h : gmap string (list string)) (err : option MalformedError)
| Panicked.

Section GoStrings.

(** Go's standard library on text that is not plain ASCII: [strings.ToLower]
    on a string with a byte of 128 or more ([strings.Map] of
    [unicode.ToLower] over the decoded runes), and [strings.TrimSpace]. *)
Variable unicodeLower : string -> string.
Variable TrimSpace : string -> string.

(** [strings.ToLower]. *)
Definition ToLower (s : string) : string :=
  if isASCII s then lowerASCII s else unicodeLower s.

(** The map [commonHeader] after [init]: for each name [v],
    [commonHeader[v] = lower] and [commonHeader[lower] = lower]. *)
Definition commonHeader : gmap string string :=
  foldl (fun m v => let lower := ToLower v in <[lower := lower]> (<[v := lower]> m))
        ∅ commonHeaderNames.

(** [func CanonicalHTTP2HeaderKey(s string) string]. *)
Definition CanonicalHTTP2HeaderKey (s : string) : string :=
  match commonHeader !! s with
  | Some v => v
  | None => if validHeaderKey s then s else ToLower s
  end.

(** [func (h Header) Add(key, value string)] on an allocated map; [None]
    is the panic of [key[0]] on an empty key. *)
Definition Add (h : gmap string (list string)) (key value : string)
  : option (gmap string (list string)) :=
  match key with
  | EmptyString => None
  | String c _ =>
      if Ascii.eqb c ":" then Some h
      else
        let key := CanonicalHTTP2HeaderKey key in
        Some (<[key := app (default [] (h !! key)) [value]]> h)
  end.

(** [for _, v := range vv { h.Add(k, v) }]. *)
Fixpoint addValues (h : gmap string (list string)) (k : string) (vv : list string)
  : option (gmap string (list string)) :=
  match vv with
  | [] => Some h
  | v :: rest =>
      match Add h k v with
      | Some h' => addValues h' k rest
      | None => None
      end
  end.

(** The body of the [k == "cookie"] branch: a value with a [';'] past its
    first byte is split and each piece trimmed. *)
Fixpoint addCookies (h : gmap string (list string)) (k : string) (vv : list string)
  : option (gmap string (list string)) :=
  match vv with
  | [] => Some h
  | v :: rest =>
      let r := if 0 <? IndexByte v ";"
               then addValues h k (map TrimSpace (Split v ";"))
               else Add h k v in
      match r with
      | Some h' => addCookies h' k rest
      | None => None
      end
  end.

(** [func (h *Header) addHeader(header map[string][]string) error].  The
    argument lists the entries of the Go map in the order [range] visits
    them. *)
Fixpoint addHeader (h : gmap string (list string)) (header : list (string * list string))
  : outcome :=
  match header with
  | [] => Returned h None
  | (k, vv) :: rest =>
      let k := CanonicalHTTP2HeaderKey k in
      if badHeader k then addHeader h rest
      else if bool_decide (k = "cookie") then
        match addCookies h k vv with
        | Some h' => addHeader h' rest
        | None => Panicked
        end
      else
        let addAll :=
          match addValues h k vv with
          | Some h' => addHeader h' rest
          | None => Panicked
          end in
        if bool_decide (k = "te") && negb (bool_decide (length vv = 1%nat)) then
          match vv with
          | [] => Panicked
          | v0 :: _ =>
              if negb (bool_decide (ToLower v0 = "trailers"))
              then Returned h (Some (Malformed (String.append "bad value for te: " v0)))
              else addAll
          end
        else addAll
  end.

(** [func (h Header) Set(key, value string)] ([Set] is a reserved word
    here). *)
Definition HeaderSet (h : gmap string (list string)) (key value : string)
  : gmap string (list string) :=
  <[CanonicalHTTP2HeaderKey key := [value]]> h.

(** [func (h Header) Get(key string) string]; a nil map reads like an empty
    one. *)
Definition Get (h : gmap string (list string)) (key : string) : string :=
  match h !! CanonicalHTTP2HeaderKey key with
  | Some (v :: _) => v
  | _ => EmptyString
  end.

(** [func (h Header) Del(key string)]. *)
Definition Del (h : gmap string (list string)) (key : string)
  : gmap string (list string) :=
  delete (CanonicalHTTP2HeaderKey key) h.

End GoStrings.

(** [func (h Header) Len() (n int)]: the number of values, over all keys. *)
Definition Len (h : gmap string (list string)) : Z :=
  map_fold (fun _ vv n => n + Z.of_nat (length vv)) 0 h.

(** The keys of the set [pseudoHeader] after [init]. *)
Definition pseudoHeaderNames : list string :=
  [":method"; ":scheme"; ":authority"; ":path"; ":status"].

(** [key[0] == ':'] on a key that has a first byte. *)
Definition startsWithColon (key : string) : bool :=
  match key with
  | String c _ => Ascii.eqb c ":"
  | EmptyString => false
  end.

(** [var errMalformedHeader = MalformedError("invalid header field")]. *)
Definition errMalformedHeader : MalformedError := Malformed "invalid header field".

(** [func (h *Header) add(key, value string, _ bool) error]; [Panicked] is
    the panic of [key[0]] on an empty key. *)
Definition add (h : gmap string (list string)) (key value : string) : outcome :=
  match key with
  | EmptyString => Panicked
  | String c _ =>
      if Ascii.eqb c ":" && (5 <? Len h) then Returned h (Some errMalformedHeader)
      else if Ascii.eqb c ":" && negb (bool_decide (key ∈ pseudoHeaderNames))
      then Returned h (Some errMalformedHeader)
      else if negb (validHeaderKey key) then Returned h (Some errMalformedHeader)
      else Returned (<[key := app (default [] (h !! key)) [value]]> h) None
  end.

(** A header map as [add] builds it: every key is a valid header key, and a
    key that starts with [':'] is one of the five pseudo-headers. *)
Definition wellKeyed (h : gmap string (list string)) : Prop :=
  map_Forall (fun k _ => validHeaderKey k = true
                         /\ (startsWithColon k = true -> k ∈ pseudoHeaderNames)) h.

(** The methods on a [Header] that may be nil.  A nil map reads as an empty
    one, but a write to it panics (assignment to entry in nil map). *)
Module Nilable.

(** [type Header map[string][]string]: [None] is the nil map, [Some m] an
    allocated one. *)
Definition Header : Type := option (gmap string (list string)).

(** [func (h Header) Add(key, value string)]; [None] is a panic: of
    [key[0]] on an empty key, or of [h[key] = append(h[key], value)] on the
    nil map.  A key that starts with [':'] returns before the write. *)
Definition Add (unicodeLower : string -> string) (h : Header) (key value : string)
  : option Header :=
  match key with
  | EmptyString => None
  | String c _ =>
      if Ascii.eqb c ":" then Some h
      else
        let key := CanonicalHTTP2HeaderKey unicodeLower key in
        match h with
        | None => None
        | Some m => Some (Some (<[key := app (default [] (m !! key)) [value]]> m))
        end
  end.

(** [func (h Header) Len() (n int)], with its [if h == nil { return }]. *)
Definition Len (h : Header) : Z :=
  match h with
  | None => 0
  | Some m => map_fold (fun _ vv n => n + Z.of_nat (length vv)) 0 m
  end.

(** [h[key]]: reading a nil map gives the zero value, like a missing key. *)
Definition values (h : Header) (key : string) : list string :=
  match h with
  | None => []
  | Some m => default [] (m !! key)
  end.

End Nilable.

End Header.

(** ** Stream life cycle: activity, ownership and the stream counters *)

Module StreamLife.

(** The state as the other endpoint names it: local and remote swapped. *)
Definition mirror (st : StreamState) : StreamState :=
  match st with
  | StateReservedLocal => StateReservedRemote
  | StateReservedRemote => StateReservedLocal
  | StateHalfClosedLocal => StateHalfClosedRemote
  | StateHalfClosedRemote => StateHalfClosedLocal
  | _ => st
  end.

(** How far through its life a state is. *)
Definition progress (st : StreamState) : Z :=
  match st with
  | StateIdle => 0
  | StateReservedLocal | StateReservedRemote => 1
  | StateOpen => 2
  | StateHalfClosedLocal | StateHalfClosedRemote => 3
  | StateClosed => 4
  end.

(** The [switch] of [func (s *stream) active() bool]. *)
Definition isActive (st : StreamState) : bool :=
  match st with
  | StateOpen | StateHalfClosedLocal | StateHalfClosedRemote => true
  | _ => false
  end.

(** [func (s *stream) active() bool]. *)
Definition active (s : Stream.stream) : bool := isActive (Stream.state s).

(** [func localStreamID(server bool, streamID uint32) bool]. *)
Definition localStreamID (server : bool) (streamID : Z) : bool :=
  Bool.eqb server (Z.land streamID 1 =? 0).

(** The two counters [compareAndSwapState] updates: [s.conn.numStreams]
    and [s.conn.remote.numStreams], both [uint32]. *)
Record streamCounts : Type := mkCounts {
  numStreams : Z;
  remoteNumStreams : Z
}.

(** [atomic.AddUint32(&c.numStreams, k)] when [s.local()], else the same on
    [c.remote.numStreams]. *)
Definition addCount (isLocal : bool) (k : Z) (c : streamCounts) : streamCounts :=
  if isLocal
  then {| numStreams := uint32 (numStreams c + k); remoteNumStreams := remoteNumStreams c |}
  else {| numStreams := numStreams c; remoteNumStreams := uint32 (remoteNumStreams c + k) |}.

(** The counter updates of a successful [compareAndSwapState(from, to)] on
    stream [streamID] of a connection with role [server]: one more stream
    on leaving Idle or Reserved for an active state, one less
    ([^uint32(0)] added) on leaving an active state for Closed. *)
Definition countSwap (server : bool) (streamID : Z) (from to : StreamState)
    (c : streamCounts) : streamCounts :=
  match to with
  | StateOpen | StateHalfClosedLocal | StateHalfClosedRemote =>
      match from with
      | StateIdle | StateReservedLocal | StateReservedRemote =>
          addCount (localStreamID server streamID) 1 c
      | _ => c
      end
  | StateClosed =>
      match from with
      | StateOpen | StateHalfClosedLocal | StateHalfClosedRemote =>
          addCount (localStreamID server streamID) (2 ^ 32 - 1) c
      | _ => c
      end
  | _ => c
  end.

(** The counter of the side that owns the stream. *)
Definition ownCount (server : bool) (streamID : Z) (c : streamCounts) : Z :=
  if localStreamID server streamID then numStreams c else remoteNumStreams c.

(** The counter of the other side. *)
Definition otherCount (server : bool) (streamID : Z) (c : streamCounts) : Z :=
  if localStreamID server streamID then remoteNumStreams c else numStreams c.

End StreamLife.

(** ** Invariants of the flow controllers *)

Module FlowInvariants.

(** No controller of the connection has handed back more than was
    consumed: [consumedBytes] is not negative. *)
Definition accounted (cn : RecvFlow.conn) : Prop :=
  forall k, 0 <= RecvFlow.consumedBytes (RecvFlow.flowOf cn k).

(** No controller of the connection offers more than its initialWindow,
    and no initialWindow is above the protocol limit. *)
Definition bounded (cn : RecvFlow.conn) : Prop :=
  forall k,
    RecvFlow.win (RecvFlow.flowOf cn k) <= RecvFlow.winUpperBound (RecvFlow.flowOf cn k)
      <= maxInitialWindowSize.

(** The channel of a send controller never holds an empty grant. *)
Definition parked (c : SendFlow.remoteFlowController) : Prop :=
  forall v, SendFlow.winCh c = Some v -> 0 < v.

End FlowInvariants.

(** * Properties *)

(** Case analysis on the comparisons of [Z] that the goal or a hypothesis
    branches on. *)
Ltac split_comparisons :=
  repeat match goal with
         | |- context [?a <? ?b] => destruct (Z.ltb_spec a b)
         | |- context [?a <=? ?b] => destruct (Z.leb_spec a b)
         | |- context [?a =? ?b] => destruct (Z.eqb_spec a b)
         | H : context [?a <? ?b] |- _ => destruct (Z.ltb_spec a b)
         | H : context [?a <=? ?b] |- _ => destruct (Z.leb_spec a b)
         end.

(** ** The transition table and END_STREAM *)

Section TransitionFacts.

Import Dir.

(** The table alone is the transition of a frame without END_STREAM. *)
Lemma baseTransition_no_end_stream d from frameType to :
  baseTransition d from frameType = Some to <->
  Dir.transition d from frameType false = (to, true).
Proof.
  unfold Dir.transition, applyEndStream.
  destruct (baseTransition d from frameType) as [to'|]; split; intros H;
    try discriminate; inversion H; reflexivity.
Qed.

(** A rejected frame leaves [to = from] whatever END_STREAM says. *)
Lemma transition_rejected d from frameType endStream :
  baseTransition d from frameType = None ->
  Dir.transition d from frameType endStream = (from, false).
Proof. unfold Dir.transition. intros ->. reflexivity. Qed.

(** C1: whenever the table accepts a frame with destination [to], the
    transition of the same frame carrying END_STREAM returns
    HalfClosedRemote (receive) or HalfClosedLocal (send) when [to] is Open,
    and Closed when [to] is one of the two half-closed states; without
    END_STREAM it returns [to] itself. *)
Theorem transition_end_stream (d : dir) (from : StreamState) (frameType : FrameType)
    (to : StreamState) :
  baseTransition d from frameType = Some to ->
  (to = StateOpen ->
     Dir.transition d from frameType true =
       (match d with recv => StateHalfClosedRemote | send => StateHalfClosedLocal end, true))
  /\ (to = StateHalfClosedLocal \/ to = StateHalfClosedRemote ->
        Dir.transition d from frameType true = (StateClosed, true))
  /\ Dir.transition d from frameType false = (to, true).
Proof.
  intros Hbase. unfold Dir.transition. rewrite Hbase. repeat split.
  - intros ->. destruct d; reflexivity.
  - intros [-> | ->]; reflexivity.
Qed.

Lemma transition_end_stream_witness :
  Dir.transition recv StateIdle FrameHeaders true = (StateHalfClosedRemote, true)
  /\ Dir.transition send StateOpen FrameData true = (StateHalfClosedLocal, true)
  /\ Dir.transition recv StateHalfClosedLocal FrameData true = (StateClosed, true)
  /\ Dir.transition send StateIdle FrameHeaders false = (StateOpen, true).
Proof.
  refine (conj _ (conj _ (conj _ _))).
  - apply (transition_end_stream recv StateIdle FrameHeaders StateOpen); reflexivity.
  - apply (transition_end_stream send StateOpen FrameData StateOpen); reflexivity.
  - apply (transition_end_stream recv StateHalfClosedLocal FrameData StateHalfClosedLocal);
      [reflexivity | left; reflexivity].
  - apply (transition_end_stream send StateIdle FrameHeaders StateOpen); reflexivity.
Defined.

End TransitionFacts.

(** ** The stream object *)

Section StreamFacts.

Import Stream.

(** Closed is absorbing. *)
Lemma transition_closed_stays now s d frameType endStream :
  state s = StateClosed ->
  state (fst (Stream.transition now s d frameType endStream)) = StateClosed.
Proof.
  destruct s as [i st rs rr cl]; simpl; intros ->.
  destruct d, frameType, endStream; reflexivity.
Qed.

(** [closed] is the clock reading of the step that entered Closed, and
    later steps keep it. *)
Lemma transition_stamps_closed now s d frameType endStream :
  state s <> StateClosed ->
  state (fst (Stream.transition now s d frameType endStream)) = StateClosed ->
  closed (fst (Stream.transition now s d frameType endStream)) = now.
Proof.
  destruct s as [i st rs rr cl]; simpl.
  destruct d, st, frameType, endStream; simpl; congruence.
Qed.

Lemma transition_keeps_stamp now s d frameType endStream :
  state s = StateClosed ->
  closed (fst (Stream.transition now s d frameType endStream)) = closed s.
Proof.
  destruct s as [i st rs rr cl]; simpl; intros ->.
  destruct d, frameType, endStream; reflexivity.
Qed.

(** The reset flags are only ever set on the way into Closed. *)
Lemma reachable_reset_closed s :
  reachable s -> resetSent s = true \/ resetReceived s = true -> state s = StateClosed.
Proof.
  induction 1 as [i | now s d ft es Hr IH | now s Hr IH].
  - simpl. intros [H | H]; discriminate H.
  - destruct s as [i st rs rr cl]; simpl in IH.
    destruct d, st, ft, es; simpl; intros [H | H];
      first [reflexivity | discriminate H
            | (assert (E := IH ltac:(auto)); discriminate E)].
  - intros _. reflexivity.
Qed.

Lemma reachable_open_no_reset s :
  reachable s -> state s <> StateClosed ->
  resetSent s = false /\ resetReceived s = false.
Proof.
  intros Hr Hs.
  destruct (resetSent s) eqn:E1, (resetReceived s) eqn:E2; try (split; reflexivity);
    exfalso; apply Hs, (reachable_reset_closed s Hr); auto.
Qed.

Lemma resetByPeer_reachable : reachable resetByPeer.
Proof. unfold resetByPeer. do 2 apply reach_transition. apply reach_new. Qed.

Lemma remoteDone_reachable : reachable remoteDone.
Proof. unfold remoteDone. apply reach_transition. apply reach_new. Qed.

(** C3, as stated, fails: on a stream that entered Closed by receiving
    RST_STREAM, a WINDOW_UPDATE arriving one second after the close is not
    ignored but answered with a stream error STREAM_CLOSED. *)
Lemma closed_grace_counterexample :
  state resetByPeer = StateClosed
  /\ closed resetByPeer = 0
  /\ Stream.transition Second resetByPeer recv FrameWindowUpdate false =
       (resetByPeer,
        (StateClosed, Some (StreamError (AlreadyClosed 1) ErrCodeStreamClosed 1))).
Proof. refine (conj _ (conj _ _)); reflexivity. Qed.

(** C3, amended: on a stream in state Closed, a received WINDOW_UPDATE or
    RST_STREAM leaves the stream as it is and
    - when neither reset flag is set, is ignored up to 5 seconds after the
      close and is a connection error PROTOCOL_ERROR later;
    - when RST_STREAM was received on the stream, is a stream error
      STREAM_CLOSED at any time;
    - when RST_STREAM was sent (and none received), is ignored up to 5
      seconds after the close and is a stream error STREAM_CLOSED later. *)
Theorem closed_grace_window (now : Z) (s : stream) (frameType : FrameType)
    (endStream : bool) :
  state s = StateClosed ->
  frameType = FrameWindowUpdate \/ frameType = FrameRSTStream ->
  exists err,
    Stream.transition now s recv frameType endStream = (s, (StateClosed, Some err))
    /\ (resetReceived s = false -> resetSent s = false ->
          (now - closed s <= 5 * Second -> err = ignoreFrame)
          /\ (now - closed s > 5 * Second ->
                err = ConnError (AlreadyClosed (id s)) ErrCodeProtocol))
    /\ (resetReceived s = true ->
          err = StreamError (AlreadyClosed (id s)) ErrCodeStreamClosed (id s))
    /\ (resetReceived s = false -> resetSent s = true ->
          (now - closed s <= 5 * Second -> err = ignoreFrame)
          /\ (now - closed s > 5 * Second ->
                err = StreamError (AlreadyClosed (id s)) ErrCodeStreamClosed (id s))).
Proof.
  intros Hst Hft. destruct s as [i st rs rr cl]; simpl in *; subst st.
  unfold Stream.transition; simpl.
  assert (Hrej : Dir.transition recv StateClosed frameType endStream = (StateClosed, false))
    by (destruct Hft as [-> | ->]; reflexivity).
  rewrite Hrej. eexists; split; [reflexivity |].
  unfold rejection, withinGrace; simpl.
  destruct (Z.leb_spec (now - cl) (5 * Second)) as [Hle | Hgt];
    destruct rr, rs, Hft as [-> | ->];
    repeat split; intros; try reflexivity; try discriminate; lia.
Qed.

Lemma closed_grace_window_witness :
  exists err,
    Stream.transition (6 * Second) (close 0 remoteDone) recv FrameWindowUpdate false =
      (close 0 remoteDone, (StateClosed, Some err))
    /\ err = ConnError (AlreadyClosed 1) ErrCodeProtocol.
Proof.
  destruct (closed_grace_window (6 * Second) (close 0 remoteDone) FrameWindowUpdate false)
    as [err [Hrun [Hplain _]]]; [reflexivity | left; reflexivity |].
  exists err. split; [exact Hrun |].
  apply Hplain; [reflexivity | reflexivity | reflexivity].
Defined.

(** C4, as stated, fails: on a stream in state HalfClosedRemote a received
    PRIORITY frame is accepted, with no error and no change of state. *)
Lemma half_closed_remote_counterexample :
  state remoteDone = StateHalfClosedRemote
  /\ Stream.transition Second remoteDone recv FramePriority false =
       (remoteDone, (StateHalfClosedRemote, None)).
Proof. split; reflexivity. Qed.

(** C4, amended: on a stream in state HalfClosedRemote, a received
    RST_STREAM moves the stream to Closed (recording the reset and the
    time); a received PRIORITY or WINDOW_UPDATE is accepted without error,
    leaving the state unchanged unless the frame carries END_STREAM, which
    closes the stream; a received frame of any other type is a connection
    error STREAM_CLOSED and leaves the stream as it is. *)
Theorem half_closed_remote_receive (now : Z) (s : stream) (frameType : FrameType)
    (endStream : bool) :
  reachable s ->
  state s = StateHalfClosedRemote ->
  (frameType = FrameRSTStream ->
     Stream.transition now s recv frameType endStream =
       ({| id := id s; state := StateClosed; resetSent := resetSent s;
           resetReceived := true; closed := now |}, (StateClosed, None)))
  /\ (frameType = FramePriority \/ frameType = FrameWindowUpdate ->
        snd (Stream.transition now s recv frameType endStream) =
          (if endStream then StateClosed else StateHalfClosedRemote, None)
        /\ (endStream = false ->
              fst (Stream.transition now s recv frameType endStream) = s))
  /\ (frameType <> FrameRSTStream -> frameType <> FramePriority ->
      frameType <> FrameWindowUpdate ->
        Stream.transition now s recv frameType endStream =
          (s, (StateHalfClosedRemote,
               Some (ConnError (AlreadyClosed (id s)) ErrCodeStreamClosed)))).
Proof.
  intros Hr Hst.
  destruct (reachable_open_no_reset s Hr) as [Hrs Hrr]; [rewrite Hst; discriminate |].
  destruct s as [i st rs rr cl]; simpl in *; subst st rs rr.
  refine (conj _ (conj _ _)).
  - intros ->. destruct endStream; reflexivity.
  - intros [-> | ->]; destruct endStream; split; intros; try reflexivity; discriminate.
  - intros H1 H2 H3. destruct frameType; try reflexivity; congruence.
Qed.

Lemma half_closed_remote_receive_witness :
  Stream.transition Second remoteDone recv FrameData true =
    (remoteDone, (StateHalfClosedRemote,
                  Some (ConnError (AlreadyClosed 1) ErrCodeStreamClosed))).
Proof.
  apply (half_closed_remote_receive Second remoteDone FrameData true
           remoteDone_reachable eq_refl); discriminate.
Defined.

End StreamFacts.

(** ** The conversion to float32 *)

Section Float32Facts.

(** Integers up to 2^24 are floats. *)
Lemma float32_exact x : 0 < x <= 2 ^ 24 -> float32 x = x.
Proof.
  intros [Hpos Hle]. unfold float32.
  destruct (Z.eq_dec x (2 ^ 24)) as [-> | Hne]; [reflexivity |].
  assert (Hlog : Z.log2 x < 24) by (apply Z.log2_lt_pow2; lia).
  rewrite Z.abs_eq by lia.
  destruct (Z.leb_spec (Z.log2 x - 23) 0); [reflexivity | lia].
Qed.

(** Rounding moves a positive integer by less than itself. *)
Lemma float32_bounds x : 0 < x -> 0 <= float32 x < 2 * x.
Proof.
  intros Hpos. unfold float32. rewrite Z.abs_eq by lia.
  destruct (Z.leb_spec (Z.log2 x - 23) 0) as [He | He]; [lia |].
  rewrite Z.sgn_pos by lia.
  set (e := Z.log2 x - 23) in *.
  assert (Hulp : 0 < 2 ^ e) by (apply Z.pow_pos_nonneg; lia).
  assert (Hsmall : 2 ^ e < x).
  { destruct (Z.log2_spec x Hpos) as [Hlo _].
    assert (2 ^ e < 2 ^ Z.log2 x) by (apply Z.pow_lt_mono_r; lia). lia. }
  pose proof (Z.div_mod x (2 ^ e) ltac:(lia)) as Hdm.
  pose proof (Z.mod_pos_bound x (2 ^ e) Hulp) as Hr.
  assert (Hq : 0 <= x / 2 ^ e) by (apply Z.div_pos; lia).
  destruct ((2 ^ e / 2 <? x mod 2 ^ e)
            || ((x mod 2 ^ e =? 2 ^ e / 2) && Z.odd (x / 2 ^ e))); nia.
Qed.

End Float32Facts.

(** ** The receive flow controller *)

Section RecvFlowFacts.

Import RecvFlow.

Lemma flowOf_setFlow cn streamID c : flowOf (setFlow cn streamID c) streamID = c.
Proof. unfold flowOf, setFlow; simpl. apply lookup_total_insert_eq. Qed.

Lemma flowOf_setFlow_ne cn i j c : i <> j -> flowOf (setFlow cn i c) j = flowOf cn j.
Proof. intros H. unfold flowOf, setFlow; simpl. by apply lookup_total_insert_ne. Qed.

Lemma writeQueue_setFlow cn streamID c : writeQueue (setFlow cn streamID c) = writeQueue cn.
Proof. reflexivity. Qed.

(** [consumeBytes] on a stream-level controller with [n > 0], spelled
    out: the connection controller is charged first. *)
Lemma consumeBytes_stream streamID n cn :
  streamID <> 0 -> 0 < n ->
  let cc := flowOf cn 0 in
  let c := flowOf cn streamID in
  let cc' := {| win := win cc - n; winLowerBound := winLowerBound cc;
                winUpperBound := winUpperBound cc; processedWin := processedWin cc |} in
  let c' := {| win := win c - n; winLowerBound := winLowerBound c;
               winUpperBound := winUpperBound c; processedWin := processedWin c |} in
  consumeBytes streamID n cn =
    if win cc - n <? winLowerBound cc then
      (setFlow cn 0 cc', Some (ConnError WindowLimitExceeded ErrCodeFlowControl))
    else
      (setFlow (setFlow cn 0 cc') streamID c',
       if win c - n <? winLowerBound c
       then Some (StreamError WindowLimitExceeded ErrCodeFlowControl streamID)
       else None).
Proof.
  intros Hid Hn cc c cc' c'. unfold consumeBytes.
  destruct (Z.leb_spec n 0) as [|_]; [lia |].
  destruct (Z.eqb_spec streamID 0) as [|_]; [contradiction |]. cbn [negb].
  unfold consumeOwn at 1. fold cc. cbn [win winLowerBound]. fold cc'.
  destruct (win cc - n <? winLowerBound cc); [reflexivity |].
  unfold consumeOwn, levelError.
  rewrite flowOf_setFlow_ne by congruence. fold c. cbn [win winLowerBound]. fold c'.
  destruct (Z.eqb_spec streamID 0) as [|_]; [contradiction |]. reflexivity.
Qed.

(** C5, as stated, fails: when the connection-level check fails the call
    returns before touching the stream controller, whose window is not
    decreased. *)
Lemma consumeBytes_counterexample :
  snd (consumeBytes 1 10 exhaustedConn) =
    Some (ConnError WindowLimitExceeded ErrCodeFlowControl)
  /\ win (flowOf exhaustedConn 1) = 100
  /\ win (flowOf (fst (consumeBytes 1 10 exhaustedConn)) 1) = 100
  /\ win (flowOf (fst (consumeBytes 1 10 exhaustedConn)) 0) = -10.
Proof. refine (conj _ (conj _ (conj _ _))); vm_compute; reflexivity. Qed.

(** C5, amended: for a stream-level controller and [n > 0],
    [consumeBytes n] always decreases the connection window by [n]; if that
    takes the connection window below its lower bound the result is a
    connection error FLOW_CONTROL_ERROR and the stream controller is left
    as it was; otherwise the stream window is decreased by [n] too, and the
    result is a stream error FLOW_CONTROL_ERROR when that takes it below
    the stream's lower bound and no error when it does not.  So an error
    is returned exactly when one of the two windows would fall below its
    lower bound.  For [n <= 0] nothing changes and no error is returned. *)
Theorem consumeBytes_spec (streamID n : Z) (cn : conn) :
  streamID <> 0 ->
  let cc := flowOf cn 0 in
  let c := flowOf cn streamID in
  let r := consumeBytes streamID n cn in
  (n <= 0 -> r = (cn, None))
  /\ (0 < n ->
        win (flowOf (fst r) 0) = win cc - n
        /\ (win cc - n < winLowerBound cc ->
              snd r = Some (ConnError WindowLimitExceeded ErrCodeFlowControl)
              /\ flowOf (fst r) streamID = c)
        /\ (winLowerBound cc <= win cc - n ->
              win (flowOf (fst r) streamID) = win c - n
              /\ (win c - n < winLowerBound c ->
                    snd r = Some (StreamError WindowLimitExceeded ErrCodeFlowControl streamID))
              /\ (winLowerBound c <= win c - n -> snd r = None))
        /\ (is_Some (snd r) <->
              win cc - n < winLowerBound cc \/ win c - n < winLowerBound c)).
Proof.
  intros Hid cc c r. subst r. split.
  - intros Hn. unfold consumeBytes. destruct (Z.leb_spec n 0); [reflexivity | lia].
  - intros Hn. rewrite (consumeBytes_stream streamID n cn Hid Hn). fold cc c.
    assert (Hne : 0 <> streamID) by congruence.
    destruct (Z.ltb_spec (win cc - n) (winLowerBound cc)) as [Hc | Hc]; cbn [fst snd].
    + rewrite flowOf_setFlow, (flowOf_setFlow_ne _ _ _ _ Hne). fold c. cbn [win].
      refine (conj eq_refl (conj _ (conj _ _))).
      * intros _. split; reflexivity.
      * intros Hge. lia.
      * split; [intros _; left; exact Hc | intros _; eexists; reflexivity].
    + rewrite flowOf_setFlow, (flowOf_setFlow_ne _ _ _ _ Hid), flowOf_setFlow. cbn [win].
      refine (conj eq_refl (conj _ (conj _ _))).
      * intros Hlt. lia.
      * intros _. refine (conj eq_refl _).
        destruct (Z.ltb_spec (win c - n) (winLowerBound c)) as [Hs | Hs];
          split; intros; first [reflexivity | lia].
      * destruct (Z.ltb_spec (win c - n) (winLowerBound c)) as [Hs | Hs]; split.
        -- intros _. right. exact Hs.
        -- intros _. eexists; reflexivity.
        -- intros [x Hx]. discriminate Hx.
        -- intros [H | H]; lia.
Qed.

Lemma consumeBytes_spec_witness :
  win (flowOf (fst (consumeBytes 1 10 exhaustedConn)) 0) = win (flowOf exhaustedConn 0) - 10.
Proof.
  apply (consumeBytes_spec 1 10 exhaustedConn); [discriminate | reflexivity].
Defined.

(** The threshold lies below the initial window, and for initial windows up
    to 2^24 it is half of it, rounded down. *)
Lemma threshold_lt_upper c :
  0 < winUpperBound c -> 0 <= threshold c < winUpperBound c.
Proof.
  intros H. unfold threshold. pose proof (float32_bounds _ H) as Hb.
  rewrite Z.quot_div_nonneg by lia.
  split; [apply Z.div_pos; lia | apply Z.div_lt_upper_bound; lia].
Qed.

Lemma threshold_half c p :
  0 < winUpperBound c <= 2 ^ 24 -> (p <= threshold c <-> 2 * p <= winUpperBound c).
Proof.
  intros H. unfold threshold. rewrite float32_exact by lia.
  rewrite Z.quot_div_nonneg by lia.
  pose proof (Z.mul_div_le (winUpperBound c) 2 ltac:(lia)) as Hd.
  split; intros Hp; [lia | apply Z.div_le_lower_bound; lia].
Qed.

(** What a successful [windowUpdate] does to the controller it is called
    on, to the other controllers and to the queue. *)
Lemma windowUpdate_ok j cn cn' :
  windowUpdate j cn = (cn', None) ->
  0 < winUpperBound (flowOf cn j) ->
  let c := flowOf cn j in
  (forall k, k <> j -> flowOf cn' k = flowOf cn k)
  /\ ((processedWin c <= threshold c
       /\ 0 < returnedBytes c
       /\ win c + returnedBytes c <= maxInitialWindowSize
       /\ flowOf cn' j =
            mkFlow (win c + returnedBytes c) 0 (winUpperBound c) (winUpperBound c)
       /\ writeQueue cn' =
            writeQueue cn ++ [(mkWindowUpdate j (uint32 (returnedBytes c)), true)])
      \/ (threshold c < processedWin c /\ cn' = cn)).
Proof.
  intros Hrun Hup c. unfold windowUpdate in Hrun. fold c in Hrun.
  pose proof (threshold_lt_upper c Hup) as Hth.
  destruct (Z.leb_spec (winUpperBound c) 0) as [|_]; [lia |].
  destruct (Z.ltb_spec (threshold c) (processedWin c)) as [Hlt | Hge].
  - inversion Hrun; subst cn'. split; [reflexivity | right; split; [exact Hlt | reflexivity]].
  - unfold updateWindow in Hrun.
    destruct (Z.ltb_spec 0 (winUpperBound c - processedWin c)) as [Hpos | Hneg]; [| lia].
    destruct (Z.ltb_spec (maxInitialWindowSize - (winUpperBound c - processedWin c)) (win c))
      as [Hov | Hfit]; cbn [andb] in Hrun; [discriminate Hrun |].
    destruct (Z.ltb_spec (winUpperBound c - processedWin c) 0) as [| _]; [lia |].
    inversion Hrun; subst cn'. split.
    + intros k Hk. unfold flowOf; cbn [recvFlow]. by apply lookup_total_insert_ne.
    + left. unfold returnedBytes. refine (conj Hge (conj Hpos (conj _ (conj _ eq_refl)))).
      * lia.
      * unfold flowOf at 1; cbn [recvFlow]. rewrite lookup_total_insert_eq.
        f_equal; lia.
Qed.

(** The same for the part of [returnBytes] that acts on the receiver. *)
Lemma returnOwn_ok j delta cn cn' :
  returnOwn j delta cn = (cn', None) ->
  0 < winUpperBound (flowOf cn j) ->
  let c := flowOf cn j in
  let acc := returnedBytes c + delta in
  (forall k, k <> j -> flowOf cn' k = flowOf cn k)
  /\ win c <= processedWin c - delta
  /\ ((processedWin c - delta <= threshold c
       /\ 0 < acc
       /\ win c + acc <= maxInitialWindowSize
       /\ flowOf cn' j = mkFlow (win c + acc) 0 (winUpperBound c) (winUpperBound c)
       /\ writeQueue cn' = writeQueue cn ++ [(mkWindowUpdate j (uint32 acc), true)])
      \/ (threshold c < processedWin c - delta
          /\ flowOf cn' j = mkFlow (win c) (winLowerBound c) (winUpperBound c)
                                   (processedWin c - delta)
          /\ writeQueue cn' = writeQueue cn)).
Proof.
  intros Hrun Hup c acc. unfold returnOwn in Hrun. fold c in Hrun.
  destruct (Z.ltb_spec (processedWin c - delta) (win c)) as [| Hfit]; [discriminate Hrun |].
  set (c1 := {| win := win c; winLowerBound := winLowerBound c;
                winUpperBound := winUpperBound c;
                processedWin := processedWin c - delta |}) in *.
  apply windowUpdate_ok in Hrun; rewrite flowOf_setFlow in *; [| exact Hup].
  destruct Hrun as [Hother Hcase]. refine (conj _ (conj Hfit _)).
  - intros k Hk. rewrite (Hother k Hk). apply flowOf_setFlow_ne. congruence.
  - subst c1. unfold threshold, returnedBytes in Hcase.
    cbn [winUpperBound processedWin win] in Hcase. fold (threshold c) in Hcase.
    replace (winUpperBound c - (processedWin c - delta)) with acc in Hcase
      by (unfold acc, returnedBytes; lia).
    destruct Hcase as [(H1 & H2 & H3 & H4 & H5) | (H1 & H2)].
    + left. rewrite writeQueue_setFlow in H5. auto.
    + right. subst cn'. rewrite flowOf_setFlow, writeQueue_setFlow. auto.
Qed.

(** Whatever it returns, the receiver's part of [returnBytes] leaves the
    other controllers and the frames queued for other streams alone. *)
Lemma returnOwn_frame j delta cn k :
  k <> j ->
  flowOf (fst (returnOwn j delta cn)) k = flowOf cn k
  /\ framesOf k (writeQueue (fst (returnOwn j delta cn))) = framesOf k (writeQueue cn).
Proof.
  intros Hk. unfold returnOwn.
  destruct (processedWin (flowOf cn j) - delta <? win (flowOf cn j)); [split; reflexivity |].
  set (cn1 := setFlow cn j _).
  assert (H1 : flowOf cn1 k = flowOf cn k) by (apply flowOf_setFlow_ne; congruence).
  unfold windowUpdate.
  destruct (winUpperBound (flowOf cn1 j) <=? 0); [split; [exact H1 | reflexivity] |].
  destruct (threshold (flowOf cn1 j) <? processedWin (flowOf cn1 j));
    [split; [exact H1 | reflexivity] |].
  destruct (updateWindow (flowOf cn1 j) _) as [c' [err |]];
    [split; [exact H1 | reflexivity] |].
  cbn [fst recvFlow writeQueue]. split.
  - rewrite <- H1. unfold flowOf. by apply lookup_total_insert_ne.
  - unfold framesOf. rewrite List.filter_app. cbn [List.filter fst StreamID].
    destruct (Z.eqb_spec j k) as [-> | _]; [contradiction |]. apply app_nil_r.
Qed.

(** A successful [returnBytes] is a successful receiver's part, run on a
    connection in which the receiver and its queued frames are as at the
    start. *)
Lemma returnBytes_own streamID delta cn cn' :
  returnBytes streamID delta cn = (cn', None) ->
  exists cn1,
    flowOf cn1 streamID = flowOf cn streamID
    /\ framesOf streamID (writeQueue cn1) = framesOf streamID (writeQueue cn)
    /\ returnOwn streamID delta cn1 = (cn', None).
Proof.
  unfold returnBytes. destruct (Z.eqb_spec streamID 0) as [-> | Hne]; cbn [negb].
  - intros H. exists cn. auto.
  - pose proof (returnOwn_frame 0 delta cn streamID Hne) as [Hf Hq].
    destruct (returnOwn 0 delta cn) as [cn1 [err |]]; [discriminate |].
    intros H. exists cn1. auto.
Qed.

(** [returnBytes] does return without error when no more is handed back
    than was consumed, on a controller (and, for a stream, a connection
    controller) whose initialWindow respects the protocol limit. *)
Lemma returnOwn_succeeds j delta cn :
  win (flowOf cn j) <= processedWin (flowOf cn j) - delta ->
  winUpperBound (flowOf cn j) <= maxInitialWindowSize ->
  snd (returnOwn j delta cn) = None.
Proof.
  intros Hfit Hmax. unfold returnOwn.
  destruct (Z.ltb_spec (processedWin (flowOf cn j) - delta) (win (flowOf cn j))); [lia |].
  unfold windowUpdate, updateWindow. rewrite flowOf_setFlow.
  cbn [winUpperBound processedWin win].
  split_comparisons; cbn [andb fst snd]; first [reflexivity | lia].
Qed.

Lemma returnBytes_succeeds streamID delta cn :
  (forall j, j = 0 \/ j = streamID ->
     win (flowOf cn j) <= processedWin (flowOf cn j) - delta
     /\ winUpperBound (flowOf cn j) <= maxInitialWindowSize) ->
  snd (returnBytes streamID delta cn) = None.
Proof.
  intros H. unfold returnBytes.
  destruct (Z.eqb_spec streamID 0) as [-> | Hne]; cbn [negb].
  - apply returnOwn_succeeds; apply (H 0); auto.
  - pose proof (returnOwn_succeeds 0 delta cn) as H0.
    pose proof (returnOwn_frame 0 delta cn streamID Hne) as [Hf _].
    destruct (returnOwn 0 delta cn) as [cn1 [err |]]; cbn [fst snd] in *.
    + assert (Some err = None) by (apply H0; apply (H 0); auto). discriminate.
    + apply returnOwn_succeeds; rewrite Hf; apply (H streamID); auto.
Qed.

(** C6, as stated, fails: with an initial window of 2^24 + 3, returning
    8388609 bytes stays below half of the window and still queues a
    WINDOW_UPDATE (float32 rounds the window up to 2^24 + 4); and the
    window after the update is the accumulated amount, not the initial
    window, because the bytes not yet returned stay charged. *)
Lemma returnBytes_counterexample :
  returnedBytes (flowOf wideConn 0) = 0
  /\ 2 * 8388609 < winUpperBound (flowOf wideConn 0)
  /\ snd (returnBytes 0 8388609 wideConn) = None
  /\ writeQueue (fst (returnBytes 0 8388609 wideConn)) = [(mkWindowUpdate 0 8388609, true)]
  /\ win (flowOf (fst (returnBytes 0 8388609 wideConn)) 0) = 8388609.
Proof. refine (conj _ (conj _ (conj _ (conj _ _)))); vm_compute; reflexivity. Qed.

(** C6, amended: take a receive flow controller with positive
    initialWindow and a call of [returnBytes] that returns no error, and
    let the accumulated amount be what was handed back and not yet
    re-credited, this call included.  If processedWindow, lowered by this
    call, is at or below [int(float32(initialWindow) * 0.5)], exactly one
    WINDOW_UPDATE frame is queued for the controller's stream, carrying the
    accumulated amount as a uint32 (the amount itself when the window is at
    least -2^31), the window grows by that amount and the accumulation
    counter is back at zero.  Otherwise no frame is queued for that stream
    and the amount stays accumulated.  For an initialWindow of at most 2^24
    the first case is exactly: the accumulated amount is at least 50% of
    initialWindow. *)
Theorem returnBytes_window_update (streamID delta : Z) (cn cn' : conn) :
  returnBytes streamID delta cn = (cn', None) ->
  0 < winUpperBound (flowOf cn streamID) ->
  let c := flowOf cn streamID in
  let c' := flowOf cn' streamID in
  let acc := returnedBytes c + delta in
  (processedWin c - delta <= threshold c ->
     framesOf streamID (writeQueue cn') =
       framesOf streamID (writeQueue cn) ++ [(mkWindowUpdate streamID (uint32 acc), true)]
     /\ (- 2 ^ 31 <= win c -> uint32 acc = acc)
     /\ returnedBytes c' = 0
     /\ win c' = win c + acc
     /\ winUpperBound c' = winUpperBound c)
  /\ (threshold c < processedWin c - delta ->
        framesOf streamID (writeQueue cn') = framesOf streamID (writeQueue cn)
        /\ returnedBytes c' = acc
        /\ win c' = win c
        /\ winUpperBound c' = winUpperBound c)
  /\ (winUpperBound c <= 2 ^ 24 ->
        (processedWin c - delta <= threshold c <-> winUpperBound c <= 2 * acc)).
Proof.
  intros Hrun Hup c c' acc.
  destruct (returnBytes_own _ _ _ _ Hrun) as (cn1 & Hc & Hq & Hown).
  apply returnOwn_ok in Hown; rewrite Hc in *; [| exact Hup].
  fold c acc in Hown. destruct Hown as (_ & Hfit & Hcase).
  refine (conj _ (conj _ _)).
  - intros Hreach. destruct Hcase as [(_ & Hpos & Hmax & Hc' & Hw) | (Hno & _)]; [| lia].
    fold c' in Hc'. rewrite Hc', Hw. unfold returnedBytes. cbn [win winUpperBound processedWin].
    refine (conj _ (conj _ (conj _ (conj eq_refl eq_refl)))).
    + rewrite <- Hq. unfold framesOf. rewrite List.filter_app.
      cbn [List.filter fst StreamID]. rewrite Z.eqb_refl. reflexivity.
    + intros Hwin. unfold uint32. apply Z.mod_small.
      unfold maxInitialWindowSize in Hmax. lia.
    + lia.
  - intros Hbelow. destruct Hcase as [(Hno & _) | (_ & Hc' & Hw)]; [lia |].
    fold c' in Hc'. rewrite Hc', Hw. unfold returnedBytes. cbn [win winUpperBound processedWin].
    refine (conj Hq (conj _ (conj eq_refl eq_refl))).
    unfold acc, returnedBytes. lia.
  - intros Hsmall. fold c in Hup.
    rewrite (threshold_half c (processedWin c - delta) (conj Hup Hsmall)).
    unfold acc, returnedBytes. lia.
Qed.

Lemma returnBytes_window_update_witness :
  framesOf 0 (writeQueue (fst (returnBytes 0 1 halfwayConn))) =
    framesOf 0 (writeQueue halfwayConn)
      ++ [(mkWindowUpdate 0 (uint32 (returnedBytes (flowOf halfwayConn 0) + 1)), true)].
Proof.
  apply (returnBytes_window_update 0 1 halfwayConn (fst (returnBytes 0 1 halfwayConn)));
    vm_compute; first [reflexivity | discriminate].
Defined.

(** C7, as stated, fails: lowering INITIAL_WINDOW_SIZE from 65535 to 1024
    shifts the window to 1024 and the lower bound to -64511, but
    initialWindow is held at 65535, the smallest value
    [updateInitialWindow] lets it take. *)
Lemma incrementInitialWindow_counterexample :
  flowOf idleConn 1 = mkFlow 65535 0 65535 65535
  /\ incrementInitialWindow 1 (1024 - 65535) idleConn =
       (setFlow idleConn 1 (mkFlow 1024 (-64511) 65535 1024), None).
Proof. split; reflexivity. Qed.

(** C7, amended: on a stream-level controller, an INITIAL_WINDOW_SIZE
    change by [delta] that does not take the window past 2^31-1 shifts the
    window and processedWindow by [delta], sets windowLowerBound to
    [min(0, delta)] and moves initialWindow to [initialWindow + delta]
    clamped into [65535, 2^31-1], so by exactly [delta] only when that sum
    lies in the range; a positive [delta] that would take the window past
    2^31-1 is refused with an error and changes nothing; on the
    connection-level controller the operation changes nothing. *)
Theorem incrementInitialWindow_spec (streamID delta : Z) (cn : conn) :
  streamID <> 0 ->
  let c := flowOf cn streamID in
  (delta <= 0 \/ win c + delta <= maxInitialWindowSize ->
     exists c',
       incrementInitialWindow streamID delta cn = (setFlow cn streamID c', None)
       /\ win c' = win c + delta
       /\ processedWin c' = processedWin c + delta
       /\ winLowerBound c' = Z.min 0 delta
       /\ winUpperBound c' =
            Z.min maxInitialWindowSize
                  (Z.max defaultInitialWindowSize (winUpperBound c + delta))
       /\ (defaultInitialWindowSize <= winUpperBound c + delta <= maxInitialWindowSize ->
             winUpperBound c' = winUpperBound c + delta))
  /\ (0 < delta /\ maxInitialWindowSize < win c + delta ->
        incrementInitialWindow streamID delta cn = (cn, Some (PlainError WindowOverflow)))
  /\ incrementInitialWindow 0 delta cn = (cn, None).
Proof.
  intros Hid c. unfold incrementInitialWindow.
  destruct (Z.eqb_spec streamID 0) as [| _]; [contradiction |]. fold c.
  unfold updateWindow. refine (conj _ (conj _ eq_refl)).
  - intros Hfit.
    assert (Hcond : (0 <? delta) && (maxInitialWindowSize - delta <? win c) = false).
    { destruct (Z.ltb_spec 0 delta); [| reflexivity].
      destruct (Z.ltb_spec (maxInitialWindowSize - delta) (win c)); [lia | reflexivity]. }
    rewrite Hcond. eexists. split; [reflexivity |].
    unfold updateInitialWindow, defaultInitialWindowSize, maxInitialWindowSize in *.
    cbn [win winLowerBound winUpperBound processedWin].
    refine (conj eq_refl (conj eq_refl (conj _ _)));
      split_comparisons; try split; intros; lia.
  - intros [Hpos Hov]. split_comparisons; first [reflexivity | lia].
Qed.

Lemma incrementInitialWindow_spec_witness :
  exists c',
    incrementInitialWindow 1 1000 idleConn = (setFlow idleConn 1 c', None)
    /\ win c' = 66535 /\ winLowerBound c' = 0 /\ winUpperBound c' = 66535.
Proof.
  destruct (incrementInitialWindow_spec 1 1000 idleConn) as [Hok _]; [discriminate |].
  destruct Hok as (c' & Hrun & Hwin & _ & Hlow & _ & Hup);
    [right; vm_compute; discriminate |].
  exists c'. refine (conj Hrun (conj Hwin (conj Hlow _))).
  apply Hup. vm_compute. split; discriminate.
Defined.

End RecvFlowFacts.

(** ** The send flow controller and two-level allocation *)

Section SendFlowFacts.

Import SendFlow.

(** Publishing credit to the channel, or taking it back, moves it between
    [win] and the channel without changing the total. *)
Lemma credit_offer c : credit (offer c) = credit c.
Proof. destruct c as [w [v |]]; unfold offer, credit; simpl; lia. Qed.

Lemma credit_drain c : credit (drain c) = credit c.
Proof. destruct c as [w [v |]]; unfold drain, credit; simpl; lia. Qed.

(** An accepted [updateWindow] adds exactly [delta] to the credit; a
    refused one adds nothing. *)
Lemma credit_updateWindow streamID c delta reset :
  credit (fst (updateWindow streamID c delta reset)) =
    if (0 <? delta) && (maxInitialWindowSize - delta <? win c)
    then credit c else credit c + delta.
Proof.
  unfold updateWindow.
  destruct ((0 <? delta) && (maxInitialWindowSize - delta <? win c)); [reflexivity |].
  set (c1 := if reset then drain c else c).
  assert (H1 : credit c1 = credit c) by (destruct reset; [apply credit_drain | reflexivity]).
  cbn [win]. destruct (win c1 + delta <=? 0); cbn [fst];
    [| rewrite credit_offer]; unfold credit in *; cbn [win winCh]; lia.
Qed.

Lemma credit_incrementWindow_0 streamID c :
  credit (fst (incrementWindow streamID c 0)) = credit c.
Proof.
  unfold incrementWindow. rewrite credit_updateWindow, Z.ltb_irrefl. cbn [andb]. lia.
Qed.




End SendFlowFacts.

(** ** The settings store *)

Section SettingsFacts.

Import Settings.

Variable defaultMaxConcurrentStreams : Z.

(** When the loop of [SetValue] finds no entry, [value] finds none
    either. *)
Lemma overwrite_None s id v : overwrite s id v = None <-> value s id = None.
Proof.
  induction s as [| x rest IH]; simpl; [tauto |].
  destruct (bool_decide (ID x = id)); [split; discriminate |].
  destruct (overwrite rest id v); [split; [discriminate | intros H; apply IH in H; discriminate] |].
  tauto.
Qed.

(** When it finds one, it is the first with that id; only that entry
    changes, and it now holds the value. *)
Lemma overwrite_Some s id v s' :
  overwrite s id v = Some s' ->
  value s' id = Some v
  /\ length s' = length s
  /\ exists l1 x l2,
       s = l1 ++ x :: l2 /\ ID x = id /\ Forall (fun y => ID y <> id) l1
       /\ s' = l1 ++ {| ID := id; Val := v |} :: l2.
Proof.
  revert s'. induction s as [| x rest IH]; simpl; intros s' H; [discriminate |].
  destruct (bool_decide (ID x = id)) eqn:E.
  - apply bool_decide_eq_true in E. inversion H; subst s'. simpl.
    rewrite bool_decide_true by exact E.
    refine (conj eq_refl (conj eq_refl _)).
    exists [], x, rest. rewrite E. auto.
  - apply bool_decide_eq_false in E.
    destruct (overwrite rest id v) as [rest' |]; [| discriminate].
    inversion H; subst s'. destruct (IH rest' eq_refl) as (Hv & Hlen & l1 & y & l2 & Hs & Hy & Hl1 & Hs').
    simpl. rewrite bool_decide_false by exact E.
    refine (conj Hv (conj (f_equal S Hlen) _)).
    exists (x :: l1), y, l2. subst rest rest'. auto.
Qed.

(** An appended entry is found when no earlier one has the id. *)
Lemma value_app_new s id v :
  value s id = None -> value (s ++ [{| ID := id; Val := v |}]) id = Some v.
Proof.
  induction s as [| x rest IH]; simpl.
  - intros _. rewrite bool_decide_true by reflexivity. reflexivity.
  - destruct (bool_decide (ID x = id)); [discriminate | exact IH].
Qed.

(** The values [SetValue] refuses. *)
Lemma accepted_false id v :
  accepted id v = false <->
  (id = SettingEnablePush /\ 2 <= v)
  \/ (id = SettingInitialWindowSize /\ 2 ^ 31 - 1 < v)
  \/ (id = SettingMaxFrameSize /\ (v < 16384 \/ 16777215 < v)).
Proof.
  unfold accepted, maxInitialWindowSize, maxFrameSizeLowerBound, maxFrameSizeUpperBound.
  destruct id; rewrite ?andb_false_iff, ?Z.ltb_ge, ?Z.leb_gt;
    intuition (try discriminate; try lia).
Qed.

(** C8: [SetValue(id, v)] returns an error exactly for ENABLE_PUSH with
    [v >= 2], INITIAL_WINDOW_SIZE with [v > 2^31-1] and MAX_FRAME_SIZE with
    [v] outside [16384, 16777215]; then the store is unchanged.  On
    success [Value(id)] is [v]; an id already in the store has its (first)
    entry overwritten in place and the sequence keeps its length; a new id
    is appended. *)
Theorem SetValue_spec (s : list setting) (id : SettingID) (v : Z) :
  let r := SetValue s id v in
  (is_Some (snd r) <->
     (id = SettingEnablePush /\ 2 <= v)
     \/ (id = SettingInitialWindowSize /\ 2 ^ 31 - 1 < v)
     \/ (id = SettingMaxFrameSize /\ (v < 16384 \/ 16777215 < v)))
  /\ (is_Some (snd r) -> fst r = s)
  /\ (snd r = None ->
        Value defaultMaxConcurrentStreams (fst r) id = v
        /\ (is_Some (value s id) ->
              length (fst r) = length s
              /\ exists l1 x l2,
                   s = l1 ++ x :: l2 /\ ID x = id /\ Forall (fun y => ID y <> id) l1
                   /\ fst r = l1 ++ {| ID := id; Val := v |} :: l2)
        /\ (value s id = None -> fst r = s ++ [{| ID := id; Val := v |}])).
Proof.
  intros r. subst r. unfold SetValue.
  pose proof (accepted_false id v) as Hacc.
  destruct (accepted id v); cbn [negb].
  - assert (Hnone : forall o : option settingError, o = None -> ~ is_Some o)
      by (intros o -> [x Hx]; discriminate Hx).
    destruct (overwrite s id v) as [s' |] eqn:Eow; cbn [fst snd].
    + destruct (overwrite_Some _ _ _ _ Eow) as (Hv & Hlen & Hdec).
      refine (conj _ (conj _ _)).
      * split; [intros [x Hx]; discriminate Hx | intros H; apply Hacc in H; discriminate H].
      * intros [x Hx]; discriminate Hx.
      * intros _. unfold Value. rewrite Hv. refine (conj eq_refl (conj _ _)).
        -- intros _. split; assumption.
        -- intros Hno. apply (overwrite_None s id v) in Hno. congruence.
    + apply overwrite_None in Eow. refine (conj _ (conj _ _)).
      * split; [intros [x Hx]; discriminate Hx | intros H; apply Hacc in H; discriminate H].
      * intros [x Hx]; discriminate Hx.
      * intros _. unfold Value. rewrite (value_app_new s id v Eow).
        refine (conj eq_refl (conj _ _)).
        -- rewrite Eow. intros [x Hx]; discriminate Hx.
        -- intros _. reflexivity.
  - cbn [fst snd]. refine (conj _ (conj _ _)).
    + split; [intros _; apply Hacc; reflexivity | intros _; eexists; reflexivity].
    + intros _. reflexivity.
    + discriminate.
Qed.

End SettingsFacts.

(** ** Header names and the header map *)

Section HeaderFacts.

Import Header.

Open Scope string_scope.
Open Scope Z_scope.

(** Lower-casing bytes. *)
Lemma isUpper_lowerByte c : isUpper (lowerByte c) = false.
Proof. destruct c as [[] [] [] [] [] [] [] []]; reflexivity. Qed.

Lemma lowerByte_below_128 c : (byteVal (lowerByte c) <? 128) = (byteVal c <? 128).
Proof. destruct c as [[] [] [] [] [] [] [] []]; reflexivity. Qed.

Lemma lowerByte_fixed c : isUpper c = false -> lowerByte c = c.
Proof. unfold lowerByte. intros ->. reflexivity. Qed.

Lemma noUpper_lowerASCII s : noUpper (lowerASCII s) = true.
Proof.
  unfold noUpper. induction s as [| c rest IH]; [reflexivity |].
  cbn [lowerASCII list_ascii_of_string forallb]. rewrite isUpper_lowerByte. exact IH.
Qed.

Lemma isASCII_lowerASCII s : isASCII (lowerASCII s) = isASCII s.
Proof.
  unfold isASCII. induction s as [| c rest IH]; [reflexivity |].
  cbn [lowerASCII list_ascii_of_string forallb]. rewrite lowerByte_below_128, IH. reflexivity.
Qed.

Lemma lowerASCII_fixed s : noUpper s = true -> lowerASCII s = s.
Proof.
  unfold noUpper. induction s as [| c rest IH]; [reflexivity |].
  cbn [lowerASCII list_ascii_of_string forallb]. intros H.
  apply andb_true_iff in H as [Hc Hrest]. apply negb_true_iff in Hc.
  rewrite (lowerByte_fixed c Hc), (IH Hrest). reflexivity.
Qed.

(** A valid key has no upper-case letter. *)
Lemma validHeaderKey_noUpper s : validHeaderKey s = true -> noUpper s = true.
Proof.
  unfold validHeaderKey, noUpper. destruct s as [| c0 rest0]; [discriminate |].
  generalize (String c0 rest0). clear. intros s.
  induction s as [| c rest IH]; [reflexivity |].
  cbn [list_ascii_of_string forallb]. intros H.
  apply andb_true_iff in H as [Hc Hrest]. rewrite (IH Hrest), andb_true_r.
  apply negb_true_iff in Hc. apply orb_false_iff in Hc as [_ Hc]. rewrite Hc. reflexivity.
Qed.

Section Library.

Variable unicodeLower : string -> string.
Variable TrimSpace : string -> string.

(** In [commonHeader] every value is lower case and is itself a key mapped
    to itself, and a key without upper-case letters is mapped to itself. *)
Lemma commonHeader_values :
  map_Forall (fun k v => noUpper v = true
                         /\ commonHeader unicodeLower !! v = Some v
                         /\ (noUpper k = true -> v = k))
             (commonHeader unicodeLower).
Proof. apply (bool_decide_unpack _). vm_compute. exact I. Qed.

(** The names [net/http] and HTTP/2 give the TE header. *)
Lemma canonical_Te : CanonicalHTTP2HeaderKey unicodeLower "Te" = "te".
Proof. vm_compute. reflexivity. Qed.

Lemma canonical_te : CanonicalHTTP2HeaderKey unicodeLower "te" = "te".
Proof. vm_compute. reflexivity. Qed.

(** C9, the code at the failing inputs: a TE header with a single value is
    added whatever the value is, and a TE header with several values is
    added whenever the first of them is [trailers]; no error is
    returned. *)
Theorem addHeader_te_unchecked (h : gmap string (list string)) (v : string) :
  addHeader unicodeLower TrimSpace h [("Te", [v])] =
    Returned (<["te" := app (default [] (h !! "te")) [v]]> h) None
  /\ exists h',
       addHeader unicodeLower TrimSpace h [("Te", ["trailers"; v])] = Returned h' None
       /\ h' !! "te" = Some (app (default [] (h !! "te")) ["trailers"; v]).
Proof.
  split.
  - cbn [addHeader]. rewrite canonical_Te.
    cbn [addValues Add]. rewrite canonical_te. reflexivity.
  - eexists. split.
    + cbn [addHeader]. rewrite canonical_Te.
      cbn [addValues Add]. rewrite canonical_te. reflexivity.
    + rewrite lookup_insert_eq, lookup_insert_eq. cbn [default from_option id].
      rewrite <- app_assoc. reflexivity.
Qed.

Section Lowering.

(** What is used of Go's Unicode tables: lower-casing a string that is not
    plain ASCII leaves no byte in ['A'..'Z'], and lower-casing the result
    again changes nothing. *)
Hypothesis unicodeLower_noUpper :
  forall s, isASCII s = false -> noUpper (unicodeLower s) = true.
Hypothesis unicodeLower_idempotent :
  forall s, isASCII s = false -> isASCII (unicodeLower s) = false ->
            unicodeLower (unicodeLower s) = unicodeLower s.

Lemma ToLower_noUpper s : noUpper (ToLower unicodeLower s) = true.
Proof.
  unfold ToLower. destruct (isASCII s) eqn:E;
    [apply noUpper_lowerASCII | apply unicodeLower_noUpper, E].
Qed.

Lemma ToLower_idempotent s :
  ToLower unicodeLower (ToLower unicodeLower s) = ToLower unicodeLower s.
Proof.
  unfold ToLower at 2 3. destruct (isASCII s) eqn:E; unfold ToLower.
  - rewrite isASCII_lowerASCII, E. apply lowerASCII_fixed, noUpper_lowerASCII.
  - destruct (isASCII (unicodeLower s)) eqn:E2.
    + apply lowerASCII_fixed, unicodeLower_noUpper, E.
    + apply unicodeLower_idempotent; assumption.
Qed.

(** The function over any table [m] with the properties of
    [commonHeader]: the result is lower case and a fixed point. *)
Lemma canonical_over_table (m : gmap string string) (s : string) :
  map_Forall (fun k v => noUpper v = true /\ m !! v = Some v
                         /\ (noUpper k = true -> v = k)) m ->
  let canonical := fun k =>
    match m !! k with
    | Some v => v
    | None => if validHeaderKey k then k else ToLower unicodeLower k
    end in
  noUpper (canonical s) = true /\ canonical (canonical s) = canonical s.
Proof.
  intros Hm canonical. subst canonical. cbv beta.
  destruct (m !! s) as [v |] eqn:E.
  - destruct (Hm s v E) as (Hv & Hself & _). rewrite Hself. auto.
  - destruct (validHeaderKey s) eqn:Ev.
    + rewrite E, Ev. split; [apply validHeaderKey_noUpper, Ev | reflexivity].
    + split; [apply ToLower_noUpper |].
      destruct (m !! ToLower unicodeLower s) as [v |] eqn:E2.
      * destruct (Hm _ v E2) as (_ & _ & Hk). apply Hk, ToLower_noUpper.
      * destruct (validHeaderKey (ToLower unicodeLower s));
          [reflexivity | apply ToLower_idempotent].
Qed.

(** C10: [CanonicalHTTP2HeaderKey(s)] has no byte in ['A'..'Z'], and
    applying the function to its own result returns that result. *)
Theorem canonical_key_lower_idempotent (s : string) :
  Forall (fun c => ~ (65 <= byteVal c <= 90))
         (list_ascii_of_string (CanonicalHTTP2HeaderKey unicodeLower s))
  /\ CanonicalHTTP2HeaderKey unicodeLower (CanonicalHTTP2HeaderKey unicodeLower s) =
       CanonicalHTTP2HeaderKey unicodeLower s.
Proof.
  destruct (canonical_over_table (commonHeader unicodeLower) s commonHeader_values)
    as [Hno Hidem].
  split; [| exact Hidem].
  apply List.Forall_forall. intros c Hc.
  change (noUpper (CanonicalHTTP2HeaderKey unicodeLower s) = true) in Hno.
  unfold noUpper in Hno. rewrite List.forallb_forall in Hno. specialize (Hno c Hc).
  apply negb_true_iff in Hno. unfold isUpper in Hno.
  apply andb_false_iff in Hno. rewrite Z.leb_gt, Z.leb_gt in Hno. lia.
Qed.

End Lowering.

End Library.

(** Lower-casing the ASCII letters only, a stand-in for the Unicode tables
    that meets both requirements. *)
Lemma canonical_key_lower_idempotent_witness :
  Forall (fun c => ~ (65 <= byteVal c <= 90))
         (list_ascii_of_string (CanonicalHTTP2HeaderKey lowerASCII "X-Request-ID"))
  /\ CanonicalHTTP2HeaderKey lowerASCII (CanonicalHTTP2HeaderKey lowerASCII "X-Request-ID") =
       CanonicalHTTP2HeaderKey lowerASCII "X-Request-ID".
Proof.
  apply (canonical_key_lower_idempotent lowerASCII).
  - intros s _. apply noUpper_lowerASCII.
  - intros s _ _. apply lowerASCII_fixed, noUpper_lowerASCII.
Defined.

End HeaderFacts.

(** * Further properties of the modelled code *)

(** ** The transition table *)

Section TableFacts.

Import StreamLife.

(** X1: no transition moves a stream backwards through its life
    (Idle, Reserved, Open, HalfClosed, Closed), whether or not the frame is
    accepted; in particular no transition returns to Idle and none leaves
    Closed. *)
Theorem transition_never_goes_back (d : dir) (from : StreamState) (frameType : FrameType)
    (endStream : bool) :
  progress from <= progress (fst (Dir.transition d from frameType endStream))
  /\ (fst (Dir.transition d from frameType endStream) = StateIdle -> from = StateIdle)
  /\ (from = StateClosed -> fst (Dir.transition d from frameType endStream) = StateClosed).
Proof.
  destruct d, from, frameType, endStream; cbn;
    refine (conj _ (conj _ _)); first [lia | reflexivity | discriminate | intros _; reflexivity].
Qed.

(** X2: the send table is the receive table seen from the other endpoint,
    only stricter: whatever the send direction accepts, the receive
    direction accepts in the mirrored state with the mirrored result, and
    outside HalfClosedRemote the two tables agree exactly (sending on
    HalfClosedRemote allows only DATA, HEADERS, PRIORITY and RST_STREAM,
    while receiving on HalfClosedLocal allows every frame). *)
Theorem send_mirrors_receive (from : StreamState) (frameType : FrameType)
    (endStream : bool) (to : StreamState) :
  Dir.transition send from frameType endStream = (to, true) ->
  Dir.transition recv (mirror from) frameType endStream = (mirror to, true)
  /\ (from <> StateHalfClosedRemote ->
      forall ft es,
        Dir.transition send from ft es =
          (mirror (fst (Dir.transition recv (mirror from) ft es)),
           snd (Dir.transition recv (mirror from) ft es))).
Proof.
  intros H. split.
  - destruct from, frameType, endStream; cbn in *; inversion H; reflexivity.
  - intros Hne ft es. destruct from, ft, es; first [reflexivity | contradiction].
Qed.

Lemma send_mirrors_receive_witness :
  Dir.transition recv StateReservedRemote FrameHeaders true = (StateClosed, true).
Proof.
  apply (send_mirrors_receive StateReservedLocal FrameHeaders true StateClosed).
  reflexivity.
Defined.

End TableFacts.

(** ** The stream object, further *)

Section StreamLifeFacts.

Import Stream StreamLife.

(** X3: a PRIORITY frame without END_STREAM is accepted in every state and
    in both directions, and leaves the stream exactly as it was. *)
Theorem priority_changes_nothing (now : Z) (s : stream) (d : dir) :
  Stream.transition now s d FramePriority false = (s, (state s, None)).
Proof.
  destruct s as [i st rs rr cl]. unfold Stream.transition. cbn [state].
  destruct d, st; reflexivity.
Qed.

(** X4: once a stream is Closed nothing changes it any more: [close] and
    every [transition], accepted or not, return the same stream, with its
    state, its reset flags and its close time. *)
Theorem closed_is_final (now : Z) (s : stream) :
  state s = StateClosed ->
  close now s = s
  /\ forall d frameType endStream,
       fst (Stream.transition now s d frameType endStream) = s.
Proof.
  destruct s as [i st rs rr cl]. cbn [state]. intros ->. split; [reflexivity |].
  intros d frameType endStream. destruct d, frameType, endStream; reflexivity.
Qed.

Lemma closed_is_final_witness : close 5 resetByPeer = resetByPeer.
Proof. apply (closed_is_final 5 resetByPeer). reflexivity. Defined.

(** X5: a frame that [transition] answers with an error, [ignoreFrame]
    included, has no effect on the stream. *)
Theorem rejected_frame_has_no_effect (now : Z) (s : stream) (d : dir)
    (frameType : FrameType) (endStream : bool) :
  is_Some (snd (snd (Stream.transition now s d frameType endStream))) ->
  fst (Stream.transition now s d frameType endStream) = s
  /\ fst (snd (Stream.transition now s d frameType endStream)) = state s
  /\ snd (Dir.transition d (state s) frameType endStream) = false.
Proof.
  unfold Stream.transition.
  destruct (Dir.transition d (state s) frameType endStream) as [to [|]]; cbn [fst snd].
  - intros [e He]. discriminate He.
  - intros _. auto.
Qed.

Lemma rejected_frame_has_no_effect_witness :
  fst (Stream.transition 0 remoteDone recv FrameData false) = remoteDone.
Proof.
  apply (rejected_frame_has_no_effect 0 remoteDone recv FrameData false).
  eexists. reflexivity.
Defined.

(** X6: on every reachable stream at most one of [resetSent] and
    [resetReceived] is set, and a stream with either flag set is Closed. *)
Theorem at_most_one_reset (s : stream) :
  reachable s ->
  resetSent s && resetReceived s = false
  /\ (resetSent s || resetReceived s = true -> state s = StateClosed).
Proof.
  intros Hr. split.
  - induction Hr as [i | now s d ft es Hr IH | now s Hr IH].
    + reflexivity.
    + pose proof (reachable_reset_closed s Hr) as Hcl.
      destruct s as [i st rs rr cl]; cbn [resetSent resetReceived state] in *.
      destruct rs, rr; try discriminate IH;
        try (assert (st = StateClosed) by (apply Hcl; auto); subst st);
        destruct d, ft, es; try reflexivity;
        destruct st; reflexivity.
    + exact IH.
  - intros H. apply (reachable_reset_closed s Hr).
    apply orb_true_iff in H. exact H.
Qed.

Lemma at_most_one_reset_witness :
  resetSent resetByPeer && resetReceived resetByPeer = false.
Proof. apply (at_most_one_reset resetByPeer). apply resetByPeer_reachable. Defined.

(** X7: after RST_STREAM was received on a stream, every received frame
    other than PRIORITY is a stream error STREAM_CLOSED, at any time, and
    PRIORITY is still accepted; after RST_STREAM was sent (and none
    received), every received frame other than PRIORITY is ignored up to 5
    seconds after the close and is a stream error STREAM_CLOSED later. *)
Theorem frames_after_reset (now : Z) (s : stream) (frameType : FrameType)
    (endStream : bool) :
  reachable s ->
  resetSent s || resetReceived s = true ->
  Stream.transition now s recv FramePriority endStream = (s, (StateClosed, None))
  /\ (frameType <> FramePriority ->
      snd (Stream.transition now s recv frameType endStream) =
        (StateClosed,
         Some (if resetReceived s
               then StreamError (AlreadyClosed (id s)) ErrCodeStreamClosed (id s)
               else if now - closed s <=? 5 * Second then ignoreFrame
                    else StreamError (AlreadyClosed (id s)) ErrCodeStreamClosed (id s)))).
Proof.
  intros Hr Hflag.
  assert (Hcl : state s = StateClosed)
    by (apply (reachable_reset_closed s Hr); apply orb_true_iff in Hflag; exact Hflag).
  destruct s as [i st rs rr cl]; cbn [resetSent resetReceived state id closed] in *.
  subst st. split.
  - destruct endStream; reflexivity.
  - intros Hft. unfold Stream.transition. cbn [state].
    assert (Hrej : Dir.transition recv StateClosed frameType endStream = (StateClosed, false))
      by (destruct frameType; first [reflexivity | contradiction]).
    rewrite Hrej. cbn [snd]. unfold rejection, withinGrace. cbn [resetSent resetReceived id closed].
    destruct rr; [reflexivity |]. destruct rs; [reflexivity | discriminate Hflag].
Qed.

Lemma frames_after_reset_witness :
  snd (Stream.transition (9 * Second) resetByPeer recv FrameData true) =
    (StateClosed, Some (StreamError (AlreadyClosed 1) ErrCodeStreamClosed 1)).
Proof.
  apply (frames_after_reset (9 * Second) resetByPeer FrameData true);
    [apply resetByPeer_reachable | reflexivity | discriminate].
Defined.

(** X8: sending on a Closed stream never changes it: PRIORITY is allowed,
    RST_STREAM is answered with [ignoreFrame], and every other frame with
    the plain error "stream already closed". *)
Theorem send_on_closed (now : Z) (s : stream) (frameType : FrameType) (endStream : bool) :
  state s = StateClosed ->
  Stream.transition now s send frameType endStream =
    (s, (StateClosed,
         match frameType with
         | FramePriority => None
         | FrameRSTStream => Some ignoreFrame
         | _ => Some (PlainError (AlreadyClosed (id s)))
         end)).
Proof.
  destruct s as [i st rs rr cl]. cbn [state id]. intros ->.
  destruct frameType, endStream; reflexivity.
Qed.

Lemma send_on_closed_witness :
  Stream.transition 0 resetByPeer send FrameData true =
    (resetByPeer, (StateClosed, Some (PlainError (AlreadyClosed 1)))).
Proof. apply (send_on_closed 0 resetByPeer FrameData true). reflexivity. Defined.

(** X9: the stream counters follow the number of active streams.  For
    every state change the code can make (a transition the table accepts,
    or [close]), the counter of the side that owns the stream changes by
    one up when the stream becomes active, one down when it stops being
    active and not at all otherwise, and the other side's counter is left
    alone. *)
Theorem counters_follow_activity (server : bool) (streamID : Z)
    (from to : StreamState) (c : streamCounts) :
  (exists d frameType endStream, Dir.transition d from frameType endStream = (to, true))
  \/ to = StateClosed ->
  0 <= ownCount server streamID c < 2 ^ 32 ->
  ownCount server streamID (countSwap server streamID from to c) =
    uint32 (ownCount server streamID c
            + Z.b2z (isActive to) - Z.b2z (isActive from))
  /\ otherCount server streamID (countSwap server streamID from to c) =
       otherCount server streamID c.
Proof.
  intros Hstep Hrange.
  assert (Hback : isActive from = true -> isActive to = true \/ to = StateClosed).
  { destruct Hstep as [(d & ft & es & H) | ->]; [| auto].
    destruct d, from, ft, es; cbn in *; inversion H; cbn; auto; discriminate. }
  assert (Hfwd : from = StateClosed -> to = StateClosed).
  { destruct Hstep as [(d & ft & es & H) | ->]; [| auto].
    intros ->. destruct d, ft, es; cbn in H; inversion H; reflexivity. }
  assert (Hsame : uint32 (ownCount server streamID c) = ownCount server streamID c)
    by (apply Z.mod_small; exact Hrange).
  assert (Hdown : uint32 (ownCount server streamID c + (2 ^ 32 - 1)) =
                  uint32 (ownCount server streamID c - 1)).
  { unfold uint32.
    replace (ownCount server streamID c + (2 ^ 32 - 1))
      with (ownCount server streamID c - 1 + 1 * 2 ^ 32) by lia.
    apply Z.mod_add. lia. }
  unfold countSwap, addCount, ownCount, otherCount in *.
  destruct (localStreamID server streamID);
    destruct from, to; cbn [isActive Z.b2z numStreams remoteNumStreams];
    rewrite ?Z.add_0_r, ?Z.sub_0_r, ?Z.add_simpl_r;
    try (split; [first [symmetry; exact Hsame | reflexivity | exact Hdown] | reflexivity]);
    try (exfalso; destruct Hback as [Hb | Hb]; [reflexivity | discriminate Hb | discriminate Hb]);
    try (exfalso; discriminate (Hfwd eq_refl)).
Qed.

Lemma counters_follow_activity_witness :
  ownCount true 2 (countSwap true 2 StateOpen StateClosed (mkCounts 1 0)) = 0.
Proof.
  apply (counters_follow_activity true 2 StateOpen StateClosed (mkCounts 1 0));
    [right; reflexivity | vm_compute; split; [discriminate | reflexivity]].
Defined.

End StreamLifeFacts.

(** X10: exactly one endpoint owns a stream id: the server owns the even
    ids and the client the odd ones. *)
Theorem stream_ids_split_by_parity (server : bool) (streamID : Z) :
  StreamLife.localStreamID server streamID = Bool.eqb server (Z.even streamID)
  /\ StreamLife.localStreamID true streamID
       = negb (StreamLife.localStreamID false streamID).
Proof.
  unfold StreamLife.localStreamID.
  assert (H : (Z.land streamID 1 =? 0) = Z.even streamID).
  { change 1 with (Z.ones 1). rewrite Z.land_ones by lia.
    rewrite Z.pow_1_r, Zeven_mod. reflexivity. }
  rewrite H. split; [reflexivity |]. destruct (Z.even streamID); reflexivity.
Qed.

(** ** The receive flow controller, further *)

Section RecvFlowInvariants.

Import RecvFlow FlowInvariants.

(** What [windowUpdate] leaves behind: the connection as it was, or the
    receiver re-credited up to its initialWindow. *)
Lemma windowUpdate_cases j cn :
  let c := flowOf cn j in
  fst (windowUpdate j cn) = cn
  \/ (0 < returnedBytes c
      /\ win c + returnedBytes c <= maxInitialWindowSize
      /\ recvFlow (fst (windowUpdate j cn)) =
           <[j := mkFlow (win c + returnedBytes c) 0 (winUpperBound c) (winUpperBound c)]>
             (recvFlow cn)).
Proof.
  intros c. unfold windowUpdate. fold c.
  destruct (Z.leb_spec (winUpperBound c) 0) as [| Hup]; [left; reflexivity |].
  pose proof (threshold_lt_upper c Hup) as Hth.
  destruct (Z.ltb_spec (threshold c) (processedWin c)) as [| Hge]; [left; reflexivity |].
  unfold updateWindow, returnedBytes.
  destruct (Z.ltb_spec 0 (winUpperBound c - processedWin c)); [| lia].
  destruct (Z.ltb_spec (maxInitialWindowSize - (winUpperBound c - processedWin c)) (win c));
    cbn [andb]; [left; reflexivity |].
  destruct (Z.ltb_spec (winUpperBound c - processedWin c) 0); [lia |].
  right. cbn [fst recvFlow]. refine (conj _ (conj _ _)); [lia | lia |].
  do 2 f_equal. lia.
Qed.

(** A property of single controllers that holds for all of them keeps
    holding when one controller is replaced by one that has it. *)
Lemma flowOf_insert (P : flowController -> Prop) (m : gmap Z flowController) j c k :
  P c -> P (m !!! k) -> P (<[j := c]> m !!! k).
Proof.
  intros Hc Hk. destruct (Z.eq_dec j k) as [-> | Hne].
  - rewrite lookup_total_insert_eq. exact Hc.
  - rewrite lookup_total_insert_ne by exact Hne. exact Hk.
Qed.

(** X11: [consumedBytes] never becomes negative: if no controller of the
    connection has handed back more than it consumed, the same holds after
    [consumeBytes], [returnBytes], [incrementInitialWindow] and
    [incrementWindow], whatever they return. *)
Theorem consumed_never_negative (streamID x : Z) (cn : conn) :
  accounted cn ->
  accounted (fst (consumeBytes streamID x cn))
  /\ accounted (fst (returnBytes streamID x cn))
  /\ accounted (fst (incrementInitialWindow streamID x cn))
  /\ accounted (fst (incrementWindow streamID x cn)).
Proof.
  intros Hacc.
  assert (Hwu : forall j cn0, accounted cn0 -> accounted (fst (windowUpdate j cn0))).
  { intros j cn0 H0 k. destruct (windowUpdate_cases j cn0) as [-> | (_ & _ & Hm)]; [apply H0 |].
    unfold flowOf. rewrite Hm. apply flowOf_insert; [| apply H0].
    pose proof (H0 j) as Hj. unfold consumedBytes, returnedBytes in *.
    cbn [win processedWin]. lia. }
  assert (Hset : forall j c cn0, accounted cn0 -> 0 <= consumedBytes c ->
                                 accounted (setFlow cn0 j c)).
  { intros j c cn0 H0 Hc k. unfold flowOf, setFlow; cbn [recvFlow].
    apply flowOf_insert; [exact Hc | apply H0]. }
  assert (Hco : forall j cn0, 0 < x -> accounted cn0 ->
                              accounted (fst (consumeOwn j x cn0))).
  { intros j cn0 Hx H0. unfold consumeOwn. cbn [fst]. apply Hset; [exact H0 |].
    pose proof (H0 j) as Hj. unfold consumedBytes in *. cbn [win processedWin]. lia. }
  assert (Hro : forall j cn0, accounted cn0 -> accounted (fst (returnOwn j x cn0))).
  { intros j cn0 H0. unfold returnOwn.
    destruct (Z.ltb_spec (processedWin (flowOf cn0 j) - x) (win (flowOf cn0 j)));
      [exact H0 |].
    apply Hwu, Hset; [exact H0 |]. unfold consumedBytes. cbn [win processedWin]. lia. }
  refine (conj _ (conj _ (conj _ _))).
  - unfold consumeBytes. destruct (Z.leb_spec x 0); [exact Hacc |].
    destruct (negb (streamID =? 0)); [| apply Hco; assumption].
    pose proof (Hco 0 cn ltac:(lia) Hacc) as H0.
    destruct (consumeOwn 0 x cn) as [cn1 [e |]]; cbn [fst] in *; [exact H0 |].
    apply Hco; assumption.
  - unfold returnBytes. destruct (negb (streamID =? 0)); [| apply Hro; assumption].
    pose proof (Hro 0 cn Hacc) as H0.
    destruct (returnOwn 0 x cn) as [cn1 [e |]]; cbn [fst] in *; [exact H0 |].
    apply Hro; assumption.
  - unfold incrementInitialWindow. destruct (streamID =? 0); [exact Hacc |].
    unfold updateWindow.
    destruct ((0 <? x) && (maxInitialWindowSize - x <? win (flowOf cn streamID)));
      [exact Hacc |].
    cbn [fst]. apply Hset; [exact Hacc |].
    pose proof (Hacc streamID) as Hj. unfold consumedBytes, updateInitialWindow in *.
    cbn [win processedWin]. lia.
  - unfold incrementWindow. apply Hwu, Hset; [exact Hacc |].
    pose proof (Hacc streamID) as Hj. unfold consumedBytes, updateInitialWindow in *.
    cbn [win processedWin]. exact Hj.
Qed.

Lemma consumed_never_negative_witness :
  accounted (fst (returnBytes 1 50000 idleConn)).
Proof.
  apply (consumed_never_negative 1 50000 idleConn).
  intros k. unfold consumedBytes, flowOf, idleConn; cbn [recvFlow].
  apply (flowOf_insert (fun c => 0 <= processedWin c - win c)); [vm_compute; discriminate |].
  apply (flowOf_insert (fun c => 0 <= processedWin c - win c)); vm_compute; discriminate.
Defined.

(** X12: which calls keep the receive window within initialWindow, and
    initialWindow within 2^31-1.  If that holds for every controller of the
    connection, it still holds after [consumeBytes], [returnBytes] (whose
    WINDOW_UPDATE re-credits at most what was handed back) and
    [incrementInitialWindow], whatever they return.  [incrementWindow] does
    not always keep it: on a connection where no controller has handed back
    more than it consumed, it holds after [incrementWindow(delta)] exactly
    when the receiver's window is at most the new initialWindow,
    [min(2^31-1, max(65535, winUpperBound + delta))]; so it holds for every
    [delta >= 0], and a negative [delta] that takes initialWindow below the
    window leaves the window above initialWindow. *)
Theorem window_within_initial (streamID x : Z) (cn : conn) :
  bounded cn ->
  bounded (fst (consumeBytes streamID x cn))
  /\ bounded (fst (returnBytes streamID x cn))
  /\ bounded (fst (incrementInitialWindow streamID x cn))
  /\ (accounted cn ->
        (bounded (fst (incrementWindow streamID x cn)) <->
         win (flowOf cn streamID) <=
           Z.min maxInitialWindowSize
                 (Z.max defaultInitialWindowSize (winUpperBound (flowOf cn streamID) + x)))
        /\ (0 <= x -> bounded (fst (incrementWindow streamID x cn)))
        /\ (Z.min maxInitialWindowSize
                   (Z.max defaultInitialWindowSize (winUpperBound (flowOf cn streamID) + x))
              < win (flowOf cn streamID) ->
              let c' := flowOf (fst (incrementWindow streamID x cn)) streamID in
              x < 0 /\ winUpperBound c' < win c')).
Proof.
  intros Hb.
  assert (Hset : forall j c cn0,
             bounded cn0 -> win c <= winUpperBound c <= maxInitialWindowSize ->
             bounded (setFlow cn0 j c)).
  { intros j c cn0 H0 Hc k. unfold flowOf, setFlow; cbn [recvFlow].
    apply (flowOf_insert (fun c => win c <= winUpperBound c <= maxInitialWindowSize));
      [exact Hc | apply H0]. }
  assert (Hco : forall j cn0, 0 < x -> bounded cn0 -> bounded (fst (consumeOwn j x cn0))).
  { intros j cn0 Hx H0. unfold consumeOwn. cbn [fst]. apply Hset; [exact H0 |].
    pose proof (H0 j). cbn [win winUpperBound]. lia. }
  assert (Hro : forall j cn0, bounded cn0 -> bounded (fst (returnOwn j x cn0))).
  { intros j cn0 H0. unfold returnOwn.
    destruct (Z.ltb_spec (processedWin (flowOf cn0 j) - x) (win (flowOf cn0 j)))
      as [| Hfit]; [exact H0 |].
    set (c1 := {| win := win (flowOf cn0 j); winLowerBound := winLowerBound (flowOf cn0 j);
                  winUpperBound := winUpperBound (flowOf cn0 j);
                  processedWin := processedWin (flowOf cn0 j) - x |}).
    assert (H1 : bounded (setFlow cn0 j c1)) by (apply Hset; [exact H0 | apply (H0 j)]).
    destruct (windowUpdate_cases j (setFlow cn0 j c1)) as [-> | (_ & _ & Hm)]; [exact H1 |].
    intros k.
    change ((fun c => win c <= winUpperBound c <= maxInitialWindowSize)
              (recvFlow (fst (windowUpdate j (setFlow cn0 j c1))) !!! k)).
    rewrite Hm. apply flowOf_insert; [| apply H1].
    rewrite flowOf_setFlow. unfold returnedBytes. subst c1.
    pose proof (H0 j). cbn [win winUpperBound processedWin]. lia. }
  refine (conj _ (conj _ (conj _ _))).
  - unfold consumeBytes. destruct (Z.leb_spec x 0); [exact Hb |].
    destruct (negb (streamID =? 0)); [| apply Hco; assumption].
    pose proof (Hco 0 cn ltac:(lia) Hb) as H0.
    destruct (consumeOwn 0 x cn) as [cn1 [e |]]; cbn [fst] in *; [exact H0 |].
    apply Hco; assumption.
  - unfold returnBytes. destruct (negb (streamID =? 0)); [| apply Hro; assumption].
    pose proof (Hro 0 cn Hb) as H0.
    destruct (returnOwn 0 x cn) as [cn1 [e |]]; cbn [fst] in *; [exact H0 |].
    apply Hro; assumption.
  - unfold incrementInitialWindow. destruct (streamID =? 0); [exact Hb |].
    unfold updateWindow.
    destruct (Z.ltb_spec 0 x) as [Hpos | Hneg];
      [destruct (Z.ltb_spec (maxInitialWindowSize - x) (win (flowOf cn streamID)))
         as [| Hfit] |]; cbn [andb fst]; [exact Hb | |];
      (apply Hset; [exact Hb |]); pose proof (Hb streamID) as Hj;
      unfold updateInitialWindow, defaultInitialWindowSize, maxInitialWindowSize in *;
      cbn [win winUpperBound]; split_comparisons; lia.
  - intros Hacc. pose proof (Hb streamID) as Hj. pose proof (Hacc streamID) as Ha.
    unfold consumedBytes in Ha. unfold incrementWindow.
    set (c := flowOf cn streamID) in *.
    set (u := Z.min maxInitialWindowSize
                    (Z.max defaultInitialWindowSize (winUpperBound c + x))).
    set (c1 := updateInitialWindow c x).
    assert (Hu : winUpperBound c1 = u).
    { subst c1 u. unfold updateInitialWindow, defaultInitialWindowSize, maxInitialWindowSize.
      cbn [winUpperBound]. split_comparisons; lia. }
    assert (Hmax : u <= maxInitialWindowSize) by (subst u; lia).
    assert (Hw1 : win c1 = win c) by reflexivity.
    assert (Hp1 : processedWin c1 = processedWin c) by reflexivity.
    assert (Hcases :
              (bounded (fst (windowUpdate streamID (setFlow cn streamID c1))) <-> win c <= u)
              /\ (u < win c ->
                  let c' := flowOf (fst (windowUpdate streamID (setFlow cn streamID c1)))
                                   streamID in
                  winUpperBound c' < win c')).
    { cbv zeta. destruct (windowUpdate_cases streamID (setFlow cn streamID c1))
        as [-> | (Hret & _ & Hm)].
      - rewrite flowOf_setFlow, Hu, Hw1. refine (conj (conj _ _) (fun H => H)).
        + intros Hb'. specialize (Hb' streamID). rewrite flowOf_setFlow, Hu, Hw1 in Hb'. lia.
        + intros Hle. apply Hset; [exact Hb |]. rewrite Hu, Hw1. lia.
      - rewrite flowOf_setFlow in Hret, Hm. unfold returnedBytes in Hret, Hm.
        rewrite Hu, Hp1 in Hret. rewrite Hu, Hp1, Hw1 in Hm.
        refine (conj (conj (fun _ => _) (fun _ => _)) (fun Hgt => _)); [lia | | lia].
        intros k.
        change ((fun c => win c <= winUpperBound c <= maxInitialWindowSize)
                  (recvFlow (fst (windowUpdate streamID (setFlow cn streamID c1))) !!! k)).
        rewrite Hm. apply flowOf_insert; [cbn [win winUpperBound]; lia |].
        unfold setFlow; cbn [recvFlow].
        apply (flowOf_insert (fun c => win c <= winUpperBound c <= maxInitialWindowSize));
          [rewrite Hu, Hw1; lia | apply Hb]. }
    destruct Hcases as [Hiff Hbreak].
    refine (conj Hiff (conj _ _)).
    + intros Hx. apply Hiff. subst u.
      unfold defaultInitialWindowSize, maxInitialWindowSize in *. lia.
    + intros Hgt. split; [| apply Hbreak, Hgt].
      subst u. unfold defaultInitialWindowSize, maxInitialWindowSize in *. lia.
Qed.

Lemma window_within_initial_witness : bounded (fst (returnBytes 0 1 halfwayConn)).
Proof.
  apply (window_within_initial 0 1 halfwayConn).
  intros k. unfold flowOf, halfwayConn; cbn [recvFlow].
  apply (flowOf_insert (fun c => win c <= winUpperBound c <= maxInitialWindowSize));
    vm_compute; split; discriminate.
Defined.

(** X13: [consumedBytes] is the running balance of the two calls: a
    [consumeBytes(n)] that returns no error (n > 0) raises it by [n] on the
    receiver and on the connection controller, a [returnBytes(delta)] that
    returns no error lowers it by [delta] on both, WINDOW_UPDATE or not, and
    never hands back more than the balance; no other controller is
    touched. *)
Theorem consumed_bytes_balance (streamID x : Z) (cn : conn) :
  let charged j := j = 0 \/ j = streamID in
  (0 < x -> snd (consumeBytes streamID x cn) = None ->
     forall j,
       (charged j ->
          consumedBytes (flowOf (fst (consumeBytes streamID x cn)) j) =
            consumedBytes (flowOf cn j) + x)
       /\ (~ charged j -> flowOf (fst (consumeBytes streamID x cn)) j = flowOf cn j))
  /\ (snd (returnBytes streamID x cn) = None ->
        forall j,
          (charged j ->
             x <= consumedBytes (flowOf cn j)
             /\ consumedBytes (flowOf (fst (returnBytes streamID x cn)) j) =
                  consumedBytes (flowOf cn j) - x)
          /\ (~ charged j -> flowOf (fst (returnBytes streamID x cn)) j = flowOf cn j)).
Proof.
  intros charged.
  assert (Hco : forall j cn0 k,
             (k = j -> consumedBytes (flowOf (fst (consumeOwn j x cn0)) k) =
                       consumedBytes (flowOf cn0 k) + x)
             /\ (k <> j -> flowOf (fst (consumeOwn j x cn0)) k = flowOf cn0 k)).
  { intros j cn0 k. unfold consumeOwn. cbn [fst]. split.
    - intros ->. rewrite flowOf_setFlow. unfold consumedBytes. cbn [win processedWin]. lia.
    - intros Hne. apply flowOf_setFlow_ne. congruence. }
  assert (Hro : forall j cn0 k,
             snd (returnOwn j x cn0) = None ->
             (k = j -> x <= consumedBytes (flowOf cn0 k)
                       /\ consumedBytes (flowOf (fst (returnOwn j x cn0)) k) =
                            consumedBytes (flowOf cn0 k) - x)
             /\ (k <> j -> flowOf (fst (returnOwn j x cn0)) k = flowOf cn0 k)).
  { intros j cn0 k Hok. split; [| intros Hne; apply (returnOwn_frame j x cn0 k Hne)].
    intros ->. unfold returnOwn in *.
    destruct (Z.ltb_spec (processedWin (flowOf cn0 j) - x) (win (flowOf cn0 j)))
      as [| Hfit]; [discriminate Hok |].
    set (c1 := {| win := win (flowOf cn0 j); winLowerBound := winLowerBound (flowOf cn0 j);
                  winUpperBound := winUpperBound (flowOf cn0 j);
                  processedWin := processedWin (flowOf cn0 j) - x |}) in *.
    unfold consumedBytes at 1 3. split; [lia |].
    destruct (windowUpdate_cases j (setFlow cn0 j c1)) as [-> | (_ & _ & Hm)].
    + rewrite flowOf_setFlow. unfold consumedBytes. subst c1. cbn [win processedWin]. lia.
    + unfold flowOf at 1. rewrite Hm, lookup_total_insert_eq, flowOf_setFlow.
      unfold consumedBytes, returnedBytes. subst c1. cbn [win winUpperBound processedWin]. lia. }
  split.
  - intros Hx Hok j. unfold consumeBytes in *. destruct (Z.leb_spec x 0); [lia |].
    destruct (Z.eqb_spec streamID 0) as [-> | Hne]; cbn [negb] in *.
    + destruct (Hco 0 cn j) as [Heq Hneq]. split.
      * intros [-> | ->]; apply Heq; reflexivity.
      * intros Hn. apply Hneq. intros ->. apply Hn. left. reflexivity.
    + destruct (Hco 0 cn j) as [Heq0 Hneq0].
      destruct (consumeOwn 0 x cn) as [cn1 [e |]]; cbn [fst snd] in *; [discriminate Hok |].
      destruct (Hco streamID cn1 j) as [Heq1 Hneq1]. split.
      * intros [-> | ->].
        -- rewrite Hneq1 by congruence. apply Heq0. reflexivity.
        -- rewrite Heq1 by reflexivity. rewrite Hneq0 by exact Hne. reflexivity.
      * intros Hn. rewrite Hneq1, Hneq0; [reflexivity | |];
          intros ->; apply Hn; unfold charged; auto.
  - intros Hok j. unfold returnBytes in *.
    destruct (Z.eqb_spec streamID 0) as [-> | Hne]; cbn [negb] in *.
    + destruct (Hro 0 cn j Hok) as [Heq Hneq]. split.
      * intros [-> | ->]; apply Heq; reflexivity.
      * intros Hn. apply Hneq. intros ->. apply Hn. left. reflexivity.
    + pose proof (fun H => Hro 0 cn j H) as H0.
      destruct (returnOwn 0 x cn) as [cn1 [e |]]; cbn [fst snd] in *; [discriminate Hok |].
      destruct (H0 eq_refl) as [Heq0 Hneq0].
      destruct (Hro streamID cn1 j Hok) as [Heq1 Hneq1]. split.
      * intros [-> | ->].
        -- rewrite Hneq1 by congruence. apply Heq0. reflexivity.
        -- destruct (Heq1 eq_refl) as [Hle Hbal]. rewrite Hneq0 in Hle, Hbal by exact Hne.
           split; assumption.
      * intros Hn. rewrite Hneq1, Hneq0; [reflexivity | |];
          intros ->; apply Hn; unfold charged; auto.
Qed.

Lemma consumed_bytes_balance_witness :
  consumedBytes (flowOf (fst (consumeBytes 1 100 idleConn)) 1) =
    consumedBytes (flowOf idleConn 1) + 100.
Proof.
  apply (consumed_bytes_balance 1 100 idleConn); [reflexivity | reflexivity | right; reflexivity].
Defined.

(** X14: handing back more than was consumed is refused and changes
    nothing at the level that refuses: [returnBytes] on any controller
    returns the connection error INTERNAL_ERROR and leaves the connection
    as it was when the connection controller has consumed less than
    [delta]; on a stream whose connection controller accepted the bytes but
    which itself has consumed less, it returns the stream error
    INTERNAL_ERROR and leaves the stream controller as it was. *)
Theorem returnBytes_refuses_excess (streamID delta : Z) (cn : conn) :
  (consumedBytes (flowOf cn 0) < delta ->
     returnBytes streamID delta cn = (cn, Some (ConnError TooManyBytes ErrCodeInternal)))
  /\ (streamID <> 0 ->
      snd (returnOwn 0 delta cn) = None ->
      consumedBytes (flowOf cn streamID) < delta ->
        snd (returnBytes streamID delta cn) =
          Some (StreamError TooManyBytes ErrCodeInternal streamID)
        /\ flowOf (fst (returnBytes streamID delta cn)) streamID = flowOf cn streamID).
Proof.
  split.
  - intros Hlt. unfold consumedBytes in Hlt.
    assert (H0 : returnOwn 0 delta cn = (cn, Some (ConnError TooManyBytes ErrCodeInternal))).
    { unfold returnOwn.
      destruct (Z.ltb_spec (processedWin (flowOf cn 0) - delta) (win (flowOf cn 0)));
        [reflexivity | lia]. }
    unfold returnBytes. destruct (Z.eqb_spec streamID 0) as [-> | Hne]; cbn [negb];
      rewrite H0; reflexivity.
  - intros Hne Hok Hlt. unfold returnBytes.
    destruct (Z.eqb_spec streamID 0) as [| _]; [contradiction |]. cbn [negb].
    pose proof (returnOwn_frame 0 delta cn streamID Hne) as [Hf _].
    destruct (returnOwn 0 delta cn) as [cn1 [e |]]; cbn [fst snd] in *; [discriminate Hok |].
    unfold returnOwn, levelError. rewrite Hf. unfold consumedBytes in Hlt.
    destruct (Z.ltb_spec (processedWin (flowOf cn streamID) - delta)
                         (win (flowOf cn streamID))); [| lia].
    destruct (Z.eqb_spec streamID 0) as [| _]; [contradiction |].
    cbn [fst snd]. split; [reflexivity | exact Hf].
Qed.

Lemma returnBytes_refuses_excess_witness :
  returnBytes 1 1 idleConn = (idleConn, Some (ConnError TooManyBytes ErrCodeInternal)).
Proof. apply (returnBytes_refuses_excess 1 1 idleConn). reflexivity. Defined.

(** X15: [incrementWindow] on a receive controller moves initialWindow by
    [delta] and holds it within [65535, 2^31-1]; whatever it then returns,
    initialWindow stays inside that range. *)
Theorem incrementWindow_clamps (streamID delta : Z) (cn : conn) :
  let c' := flowOf (fst (incrementWindow streamID delta cn)) streamID in
  winUpperBound c' =
    Z.min maxInitialWindowSize
          (Z.max defaultInitialWindowSize (winUpperBound (flowOf cn streamID) + delta))
  /\ defaultInitialWindowSize <= winUpperBound c' <= maxInitialWindowSize.
Proof.
  intros c'. subst c'. unfold incrementWindow.
  set (c1 := updateInitialWindow (flowOf cn streamID) delta).
  assert (H1 : winUpperBound c1 =
               Z.min maxInitialWindowSize
                     (Z.max defaultInitialWindowSize
                            (winUpperBound (flowOf cn streamID) + delta))).
  { subst c1. unfold updateInitialWindow, defaultInitialWindowSize, maxInitialWindowSize.
    cbn [winUpperBound]. split_comparisons; lia. }
  assert (H2 : winUpperBound (flowOf (fst (windowUpdate streamID (setFlow cn streamID c1)))
                                     streamID) = winUpperBound c1).
  { destruct (windowUpdate_cases streamID (setFlow cn streamID c1)) as [-> | (_ & _ & Hm)].
    - rewrite flowOf_setFlow. reflexivity.
    - unfold flowOf at 1. rewrite Hm, lookup_total_insert_eq, flowOf_setFlow. reflexivity. }
  rewrite H2, H1. unfold defaultInitialWindowSize, maxInitialWindowSize. lia.
Qed.

End RecvFlowInvariants.

(** ** The send flow controller, further *)

Section SendFlowInvariants.

Import SendFlow FlowInvariants.

(** [updateWindow] and [cancel] keep an empty grant out of the channel. *)
Lemma parked_updateWindow streamID c delta reset :
  parked c -> parked (fst (updateWindow streamID c delta reset)).
Proof.
  intros Hp. unfold updateWindow.
  destruct ((0 <? delta) && (maxInitialWindowSize - delta <? win c)); [exact Hp |].
  assert (H1 : parked (if reset then drain c else c)).
  { destruct reset; [| exact Hp]. unfold drain. destruct (winCh c); [| exact Hp].
    intros v Hv. discriminate Hv. }
  set (c1 := if reset then drain c else c) in *. cbn [win].
  destruct (Z.leb_spec (win c1 + delta) 0) as [| Hpos]; cbn [fst].
  - intros v Hv. apply H1. exact Hv.
  - unfold offer. cbn [winCh win]. destruct (winCh c1) as [w |] eqn:E.
    + intros v Hv. cbn [winCh] in Hv. apply H1. congruence.
    + intros v Hv. cbn [winCh] in Hv. inversion Hv; subst v. exact Hpos.
Qed.

(** X16: a change of INITIAL_WINDOW_SIZE re-prices all the credit of a send
    controller, the part already parked in the channel included: unless
    [win + delta] passes 2^31-1, [incrementInitialWindow(delta)] returns no
    error and leaves the whole new credit [credit + delta] in the channel
    when it is positive, and otherwise an empty channel with the (zero or
    negative) credit in [win]; when [win + delta] passes 2^31-1 it returns
    FLOW_CONTROL_ERROR, on the connection for id 0 and on the stream
    otherwise, and changes nothing. *)
Theorem send_initial_window_reprices (streamID : Z) (c : remoteFlowController) (delta : Z) :
  (delta <= 0 \/ win c + delta <= maxInitialWindowSize ->
     incrementInitialWindow streamID c delta =
       (if 0 <? credit c + delta
        then {| win := 0; winCh := Some (credit c + delta) |}
        else {| win := credit c + delta; winCh := None |}, None))
  /\ (0 < delta /\ maxInitialWindowSize < win c + delta ->
        incrementInitialWindow streamID c delta =
          (c, Some (if streamID =? 0 then ConnError WindowOverflow ErrCodeFlowControl
                    else StreamError WindowOverflow ErrCodeFlowControl streamID))).
Proof.
  unfold incrementInitialWindow, updateWindow, credit. split.
  - intros Hfit.
    assert (Hc : (0 <? delta) && (maxInitialWindowSize - delta <? win c) = false)
      by (split_comparisons; first [reflexivity | lia]).
    rewrite Hc. clear Hc Hfit.
    destruct c as [w [v |]]; unfold drain, offer; cbn [win winCh default from_option id];
      rewrite ?Z.add_0_r; split_comparisons; first [reflexivity | exfalso; lia].
  - intros [Hpos Hov].
    destruct (Z.ltb_spec 0 delta); [| lia].
    destruct (Z.ltb_spec (maxInitialWindowSize - delta) (win c)); [reflexivity | lia].
Qed.

Lemma send_initial_window_reprices_witness :
  incrementInitialWindow 1 (sendFlow plainSender) (-400) =
    ({| win := 0; winCh := Some 600 |}, None).
Proof.
  apply (send_initial_window_reprices 1 (sendFlow plainSender) (-400)). left. discriminate.
Defined.

(** X17: [cancel] takes back what is parked in the channel: the channel is
    empty afterwards, the credit is what it was, and cancelling again
    changes nothing. *)
Theorem cancel_takes_back (c : remoteFlowController) :
  winCh (cancel c) = None
  /\ credit (cancel c) = credit c
  /\ win (cancel c) = credit c
  /\ cancel (cancel c) = cancel c.
Proof.
  unfold cancel, drain, credit.
  destruct c as [w [v |]]; cbn [win winCh default from_option id];
    refine (conj eq_refl (conj _ (conj _ eq_refl))); lia.
Qed.

(** X18: a producer is never handed an empty grant: when no controller
    holds an empty grant in its channel, an [allocateBytes] for [n > 0]
    bytes that returns no error grants at least one byte and at most [n],
    and leaves no empty grant behind. *)
Theorem allocateBytes_grants_something (p1 p2 : selectCase) (st st' : sender)
    (n k : Z) :
  parked (sendFlow st) ->
  parked (connSendFlow st) ->
  0 < n ->
  allocateBytes p1 p2 st n = Some (st', (k, None)) ->
  0 < k <= n /\ parked (sendFlow st') /\ parked (connSendFlow st').
Proof.
  intros Hs Hc Hn Hrun. unfold allocateBytes in Hrun.
  destruct (Z.leb_spec n 0); [lia |].
  pose proof (parked_updateWindow (streamID st) (sendFlow st) 0 false Hs) as Hs1.
  pose proof (parked_updateWindow 0 (connSendFlow st) 0 false Hc) as Hc1.
  fold (incrementWindow (streamID st) (sendFlow st) 0) in Hs1.
  fold (incrementWindow 0 (connSendFlow st) 0) in Hc1.
  set (s1 := fst (incrementWindow (streamID st) (sendFlow st) 0)) in *.
  set (c1 := fst (incrementWindow 0 (connSendFlow st) 0)) in *.
  destruct p1; [destruct (streamClosed st); discriminate Hrun
               | destruct (connClosed st); discriminate Hrun |].
  destruct (winCh s1) as [sw |] eqn:Esw; [| discriminate Hrun].
  destruct p2; [destruct (streamClosed st); discriminate Hrun
               | destruct (connClosed st); discriminate Hrun |].
  destruct (winCh c1) as [cw |] eqn:Ecw; [| discriminate Hrun].
  pose proof (Hs1 sw Esw) as Hsw. pose proof (Hc1 cw Ecw) as Hcw.
  assert (Hempty : forall w, parked {| win := w; winCh := None |})
    by (intros w v Hv; discriminate Hv).
  inversion Hrun; subst st' k; clear Hrun. cbn [sendFlow connSendFlow].
  refine (conj _ (conj _ _)).
  - split_comparisons; lia.
  - match goal with
    | |- parked (if ?b then _ else _) => destruct b
    end; [apply parked_updateWindow |]; apply Hempty.
  - match goal with
    | |- parked (if ?b then _ else _) => destruct b
    end; [apply parked_updateWindow |]; apply Hempty.
Qed.

Lemma allocateBytes_grants_something_witness :
  exists st',
    allocateBytes pickWindow pickWindow plainSender 300 = Some (st', (300, None))
    /\ parked (sendFlow st') /\ parked (connSendFlow st').
Proof.
  eexists. split; [reflexivity |].
  eapply (allocateBytes_grants_something pickWindow pickWindow plainSender _ 300 300).
  - intros v Hv. vm_compute in Hv. inversion Hv. reflexivity.
  - intros v Hv. vm_compute in Hv. inversion Hv. reflexivity.
  - reflexivity.
  - reflexivity.
Defined.

(** X19: an allocation that fails costs the connection nothing, and
    [cancel] is what makes it so when the stream is closed.  Whenever
    [allocateBytes] returns an error it returns 0 bytes and the connection
    controller holds the credit it held before.  When the first [select]
    fails, neither controller has lost credit and the connection
    controller is untouched.  When the second [select] fails, the grant
    taken from the stream's channel is not handed back (the stream or the
    connection is closed); if it fails because the stream is closed, the
    credit that [incrementWindow(0)] had put into the connection's channel
    for this producer is taken back by [cancel]: the channel is empty and
    [win] holds all the connection's credit.  For [n <= 0] the call
    returns 0 bytes and no error without touching anything. *)
Theorem allocateBytes_failure_is_free (p1 p2 : selectCase) (st : sender) (n : Z) :
  (n <= 0 -> allocateBytes p1 p2 st n = Some (st, (0, None)))
  /\ forall st' k e,
       allocateBytes p1 p2 st n = Some (st', (k, Some e)) ->
       k = 0
       /\ credit (connSendFlow st') = credit (connSendFlow st)
       /\ (p1 <> pickWindow ->
             connSendFlow st' = connSendFlow st
             /\ credit (sendFlow st') = credit (sendFlow st))
       /\ (p1 = pickWindow ->
             (exists sw,
                winCh (fst (incrementWindow (streamID st) (sendFlow st) 0)) = Some sw
                /\ winCh (sendFlow st') = None
                /\ credit (sendFlow st') = credit (sendFlow st) - sw)
             /\ (e = errStreamClosed ->
                   winCh (connSendFlow st') = None
                   /\ win (connSendFlow st') = credit (connSendFlow st))).
Proof.
  unfold allocateBytes. split.
  - intros Hn. destruct (Z.leb_spec n 0); [reflexivity | lia].
  - intros st' k e Hrun. destruct (n <=? 0); [discriminate Hrun |].
    pose proof (credit_incrementWindow_0 0 (connSendFlow st)) as Hc1.
    pose proof (credit_incrementWindow_0 (streamID st) (sendFlow st)) as Hs1.
    set (c1 := fst (incrementWindow 0 (connSendFlow st) 0)) in *.
    set (s1 := fst (incrementWindow (streamID st) (sendFlow st) 0)) in *.
    destruct p1.
    + destruct (streamClosed st); [| discriminate Hrun].
      injection Hrun as <- <- _. cbn [sendFlow connSendFlow].
      refine (conj eq_refl (conj eq_refl (conj (fun _ => conj eq_refl Hs1) _))).
      intros H. discriminate H.
    + destruct (connClosed st); [| discriminate Hrun].
      injection Hrun as <- <- _. cbn [sendFlow connSendFlow].
      refine (conj eq_refl (conj eq_refl (conj (fun _ => conj eq_refl Hs1) _))).
      intros H. discriminate H.
    + destruct (winCh s1) as [sw |] eqn:Esw; [| discriminate Hrun].
      assert (Hdrop : credit {| win := win s1; winCh := None |} = credit (sendFlow st) - sw).
      { rewrite <- Hs1. unfold credit. rewrite Esw. cbn [win winCh default from_option id]. lia. }
      destruct p2.
      * destruct (streamClosed st); [| discriminate Hrun].
        injection Hrun as <- <- <-. cbn [sendFlow connSendFlow]. unfold cancel.
        refine (conj eq_refl (conj _ (conj _ (fun _ => conj _ (fun _ => _))))).
        -- rewrite credit_drain. exact Hc1.
        -- intros H. contradiction.
        -- exists sw. refine (conj eq_refl (conj eq_refl Hdrop)).
        -- rewrite <- Hc1. unfold drain, credit.
           destruct (winCh c1) eqn:Ecw; cbn [win winCh default from_option id]; split;
             first [reflexivity | exact Ecw | lia].
      * destruct (connClosed st); [| discriminate Hrun].
        injection Hrun as <- <- <-. cbn [sendFlow connSendFlow].
        refine (conj eq_refl (conj Hc1 (conj _ (fun _ => conj _ (fun H => _))))).
        -- intros H. contradiction.
        -- exists sw. refine (conj eq_refl (conj eq_refl Hdrop)).
        -- discriminate H.
      * destruct (winCh c1); discriminate Hrun.
Qed.

End SendFlowInvariants.

(** ** The settings store, further *)

Section SettingsStoreFacts.

Import Settings.

Variable defaultMaxConcurrentStreams : Z.

(** The loop of [SetValue] keeps the ids in place and touches no other
    id's value. *)
Lemma overwrite_keeps_ids s id v s' :
  overwrite s id v = Some s' -> map ID s' = map ID s.
Proof.
  revert s'. induction s as [| x rest IH]; cbn [overwrite]; intros s' H; [discriminate |].
  destruct (bool_decide (ID x = id)).
  - inversion H; subst s'. reflexivity.
  - destruct (overwrite rest id v) as [rest' |]; [| discriminate].
    inversion H; subst s'. cbn [map]. rewrite (IH rest' eq_refl). reflexivity.
Qed.

Lemma overwrite_other s id v s' id' :
  overwrite s id v = Some s' -> id' <> id -> value s' id' = value s id'.
Proof.
  revert s'. induction s as [| x rest IH]; cbn [overwrite]; intros s' H Hne; [discriminate |].
  destruct (bool_decide (ID x = id)) eqn:E.
  - apply bool_decide_eq_true in E. inversion H; subst s'. cbn [value ID].
    rewrite !bool_decide_false by congruence. reflexivity.
  - destruct (overwrite rest id v) as [rest' |]; [| discriminate].
    inversion H; subst s'. cbn [value]. rewrite (IH rest' eq_refl Hne). reflexivity.
Qed.

Lemma value_app_other s id v id' :
  id' <> id -> value (s ++ [{| ID := id; Val := v |}]) id' = value s id'.
Proof.
  intros Hne. induction s as [| x rest IH]; cbn [app value ID].
  - rewrite bool_decide_false by congruence. reflexivity.
  - rewrite IH. reflexivity.
Qed.

Lemma value_None_fresh s id : value s id = None <-> id ∉ map ID s.
Proof.
  induction s as [| x rest IH]; cbn [value map].
  - split; [intros _; apply not_elem_of_nil | reflexivity].
  - rewrite not_elem_of_cons. destruct (bool_decide (ID x = id)) eqn:E.
    + apply bool_decide_eq_true in E. split; [discriminate | intros [H _]; congruence].
    + apply bool_decide_eq_false in E. rewrite IH. split; [intros H; split; congruence | tauto].
Qed.

Lemma value_Some_entry s id v :
  value s id = Some v -> {| ID := id; Val := v |} ∈ s.
Proof.
  induction s as [| x rest IH]; cbn [value]; [discriminate |].
  destruct (bool_decide (ID x = id)) eqn:E.
  - apply bool_decide_eq_true in E. intros H. inversion H; subst.
    destruct x; apply list_elem_of_here.
  - intros H. apply list_elem_of_further, IH, H.
Qed.

Lemma SetValue_frame s id v id' :
  id' <> id -> value (fst (SetValue s id v)) id' = value s id'.
Proof.
  intros Hne. unfold SetValue. destruct (negb (accepted id v)); [reflexivity |].
  destruct (overwrite s id v) as [s' |] eqn:E; cbn [fst].
  - apply (overwrite_other _ _ _ _ _ E Hne).
  - apply value_app_other, Hne.
Qed.

Lemma SetValue_stored s id v :
  accepted id v = true -> value (fst (SetValue s id v)) id = Some v.
Proof.
  intros Ha. unfold SetValue. rewrite Ha. cbn [negb].
  destruct (overwrite s id v) as [s' |] eqn:E; cbn [fst].
  - apply (overwrite_Some _ _ _ _ E).
  - apply value_app_new, overwrite_None with (v := v), E.
Qed.

(** X20: [SetValue] touches one setting only: whether it succeeds or
    fails, every other id reads as before, with [value] and with [Value]. *)
Theorem SetValue_other_ids (s : list setting) (id id' : SettingID) (v : Z) :
  id' <> id ->
  value (fst (SetValue s id v)) id' = value s id'
  /\ Value defaultMaxConcurrentStreams (fst (SetValue s id v)) id' =
       Value defaultMaxConcurrentStreams s id'.
Proof.
  intros Hne. pose proof (SetValue_frame s id v id' Hne) as H.
  split; [exact H |]. unfold Value. rewrite H. reflexivity.
Qed.

(** X21: the store never holds, and [Value] never returns, a value that
    [SetValue] would refuse: a store whose entries all passed the check
    keeps that property under [SetValue], and each of its settings, stored
    or defaulted, reads as an accepted value. *)
Theorem store_stays_well_formed (s : list setting) (id : SettingID) (v : Z) :
  wellFormed s ->
  wellFormed (fst (SetValue s id v))
  /\ forall id', accepted id' (Value defaultMaxConcurrentStreams s id') = true.
Proof.
  intros Hwf. split.
  - unfold SetValue. destruct (accepted id v) eqn:Ea; cbn [negb]; [| exact Hwf].
    destruct (overwrite s id v) as [s' |] eqn:E; cbn [fst].
    + destruct (overwrite_Some _ _ _ _ E) as (_ & _ & l1 & x & l2 & Hs & Hx & _ & Hs').
      subst s s'. unfold wellFormed in *. rewrite Forall_app in *.
      destruct Hwf as [H1 H2]. split; [exact H1 |].
      rewrite Forall_cons in *. destruct H2 as [_ H2]. split; [exact Ea | exact H2].
    + unfold wellFormed in *. rewrite Forall_app. split; [exact Hwf |].
      apply Forall_cons. split; [exact Ea | apply Forall_nil; exact I].
  - intros id'. unfold Value. destruct (value s id') as [w |] eqn:E.
    + apply value_Some_entry in E. unfold wellFormed in Hwf.
      rewrite Forall_forall in Hwf. apply (Hwf _ E).
    + destruct id'; reflexivity.
Qed.

(** X22: a store without two entries for one id keeps that property under
    [SetValue], and grows by at most one entry. *)
Theorem SetValue_keeps_ids_distinct (s : list setting) (id : SettingID) (v : Z) :
  NoDup (map ID s) ->
  NoDup (map ID (fst (SetValue s id v)))
  /\ (length s <= length (fst (SetValue s id v)) <= S (length s))%nat.
Proof.
  intros Hnd. unfold SetValue.
  destruct (negb (accepted id v)); cbn [fst]; [split; [exact Hnd | lia] |].
  destruct (overwrite s id v) as [s' |] eqn:E; cbn [fst].
  - rewrite (overwrite_keeps_ids _ _ _ _ E).
    destruct (overwrite_Some _ _ _ _ E) as (_ & Hlen & _). split; [exact Hnd | lia].
  - apply overwrite_None, value_None_fresh in E. split.
    + rewrite map_app. cbn [map ID]. apply NoDup_app. refine (conj Hnd (conj _ _)).
      * intros y Hy Hin. apply list_elem_of_singleton in Hin. subst y. contradiction.
      * apply NoDup_singleton.
    + rewrite length_app. cbn [length]. lia.
Qed.

Lemma SetValue_keeps_ids_distinct_witness :
  NoDup (map ID (fst (SetValue [mkSetting SettingEnablePush 1] SettingEnablePush 0))).
Proof.
  apply (SetValue_keeps_ids_distinct [mkSetting SettingEnablePush 1] SettingEnablePush 0).
  apply NoDup_singleton.
Defined.

(** Overwriting what was just written, in place or appended. *)
Lemma overwrite_twice s id v s' :
  overwrite s id v = Some s' -> forall u, overwrite s' id u = overwrite s id u.
Proof.
  revert s'. induction s as [| x rest IH]; cbn [overwrite]; intros s' H u; [discriminate |].
  destruct (bool_decide (ID x = id)) eqn:E.
  - inversion H; subst s'. cbn [overwrite ID]. rewrite E. reflexivity.
  - destruct (overwrite rest id v) as [rest' |]; [| discriminate].
    inversion H; subst s'. cbn [overwrite]. rewrite E, (IH rest' eq_refl u). reflexivity.
Qed.

Lemma overwrite_appended s id v u :
  value s id = None ->
  overwrite (s ++ [{| ID := id; Val := v |}]) id u = Some (s ++ [{| ID := id; Val := u |}]).
Proof.
  induction s as [| x rest IH]; cbn [app overwrite value ID].
  - intros _. rewrite bool_decide_true by reflexivity. reflexivity.
  - destruct (bool_decide (ID x = id)); [discriminate |].
    intros H. rewrite (IH H). reflexivity.
Qed.

(** X23: the last write wins: setting an id twice leaves the store that the
    second call alone would have left, when the second value is one
    [SetValue] accepts. *)
Theorem SetValue_last_write_wins (s : list setting) (id : SettingID) (v1 v2 : Z) :
  accepted id v2 = true ->
  fst (SetValue (fst (SetValue s id v1)) id v2) = fst (SetValue s id v2).
Proof.
  intros Ha2. unfold SetValue at 2. destruct (negb (accepted id v1)); [reflexivity |].
  unfold SetValue. rewrite Ha2. cbn [negb].
  destruct (overwrite s id v1) as [s' |] eqn:E1; cbn [fst].
  - rewrite (overwrite_twice _ _ _ _ E1 v2).
    destruct (overwrite s id v2) eqn:E2; [reflexivity | exfalso].
    apply overwrite_None in E2. apply (overwrite_None s id v1) in E2. congruence.
  - apply overwrite_None in E1. rewrite (overwrite_appended s id v1 v2 E1).
    apply (overwrite_None s id v2) in E1. rewrite E1. reflexivity.
Qed.

Lemma SetValue_last_write_wins_witness :
  fst (SetValue (fst (SetValue [] SettingMaxFrameSize 20000)) SettingMaxFrameSize 30000) =
    fst (SetValue [] SettingMaxFrameSize 30000).
Proof. apply (SetValue_last_write_wins [] SettingMaxFrameSize 20000 30000). reflexivity. Defined.

(** X24: [SetPushEnabled] never fails, [PushEnabled] reads back what was
    set, and the other five settings read as before. *)
Theorem push_enabled_round_trip (s : list setting) (enabled : bool) :
  snd (SetPushEnabled s enabled) = None
  /\ PushEnabled defaultMaxConcurrentStreams (fst (SetPushEnabled s enabled)) = enabled
  /\ forall id, id <> SettingEnablePush ->
       Value defaultMaxConcurrentStreams (fst (SetPushEnabled s enabled)) id =
         Value defaultMaxConcurrentStreams s id.
Proof.
  unfold SetPushEnabled, PushEnabled.
  assert (Hok : snd (SetValue s SettingEnablePush (if enabled then 1 else 0)) = None).
  { unfold SetValue. destruct enabled; cbn [accepted negb Z.ltb Z.compare];
      destruct (overwrite s SettingEnablePush _); reflexivity. }
  refine (conj Hok (conj _ _)).
  - unfold Value. rewrite SetValue_stored by (destruct enabled; reflexivity).
    destruct enabled; reflexivity.
  - intros id Hne. unfold Value. rewrite SetValue_frame by exact Hne. reflexivity.
Qed.

End SettingsStoreFacts.

(** The witnesses below read the store with 100 as the default of
    MAX_CONCURRENT_STREAMS. *)
Lemma SetValue_other_ids_witness :
  Settings.Value 100
    (fst (Settings.SetValue [Settings.mkSetting Settings.SettingMaxFrameSize 20000]
            Settings.SettingEnablePush 0))
    Settings.SettingMaxFrameSize = 20000%Z.
Proof.
  apply (SetValue_other_ids 100 [Settings.mkSetting Settings.SettingMaxFrameSize 20000]
           Settings.SettingEnablePush Settings.SettingMaxFrameSize 0).
  discriminate.
Defined.

Lemma store_stays_well_formed_witness :
  Settings.wellFormed (fst (Settings.SetValue [] Settings.SettingMaxFrameSize 20000)).
Proof.
  apply (store_stays_well_formed 100 [] Settings.SettingMaxFrameSize 20000).
  apply Forall_nil. exact I.
Defined.

(** ** Header names and the header map, further *)

Section HeaderMapFacts.

Import Header.

Open Scope string_scope.
Open Scope Z_scope.

Variable unicodeLower : string -> string.
Variable TrimSpace : string -> string.

(** Every entry of [commonHeader] maps a plain ASCII name to its lower-case
    form. *)
Lemma commonHeader_lower k v :
  commonHeader unicodeLower !! k = Some v -> isASCII k = true /\ v = lowerASCII k.
Proof.
  revert k v.
  change (map_Forall (fun k v => isASCII k = true /\ v = lowerASCII k)
                     (commonHeader unicodeLower)).
  apply (bool_decide_unpack _). vm_compute. exact I.
Qed.

(** A valid key is plain ASCII and already lower case. *)
Lemma validHeaderKey_ascii s : validHeaderKey s = true -> isASCII s = true.
Proof.
  unfold validHeaderKey, isASCII. destruct s as [| c0 rest0]; [discriminate |].
  generalize (String c0 rest0). clear. intros s.
  induction s as [| c rest IH]; [reflexivity |].
  cbn [list_ascii_of_string forallb]. intros H.
  apply andb_true_iff in H as [Hc Hrest]. rewrite (IH Hrest), andb_true_r.
  apply negb_true_iff, orb_false_iff in Hc as [Hc _].
  apply Z.leb_gt in Hc. apply Z.ltb_lt. lia.
Qed.

(** The table and the validity test of [CanonicalHTTP2HeaderKey] only save
    work: the result is always [strings.ToLower(s)]. *)
Lemma canonical_lower s : CanonicalHTTP2HeaderKey unicodeLower s = ToLower unicodeLower s.
Proof.
  unfold CanonicalHTTP2HeaderKey, ToLower.
  destruct (commonHeader unicodeLower !! s) as [v |] eqn:E.
  - destruct (commonHeader_lower s v E) as [Ha ->]. rewrite Ha. reflexivity.
  - destruct (validHeaderKey s) eqn:Ev; [| reflexivity].
    rewrite (validHeaderKey_ascii s Ev).
    symmetry. apply lowerASCII_fixed, validHeaderKey_noUpper, Ev.
Qed.

(** X25: [CanonicalHTTP2HeaderKey(s)] is [strings.ToLower(s)] for every
    string, in the table or not, valid or not; so two names with the same
    lower-case form have the same canonical key, and on a plain ASCII name
    the key is the name with its letters ['A'..'Z'] lowered. *)
Theorem canonical_key_is_lower_case (s : string) :
  CanonicalHTTP2HeaderKey unicodeLower s = ToLower unicodeLower s
  /\ (forall t, ToLower unicodeLower s = ToLower unicodeLower t ->
                CanonicalHTTP2HeaderKey unicodeLower s = CanonicalHTTP2HeaderKey unicodeLower t)
  /\ (isASCII s = true -> CanonicalHTTP2HeaderKey unicodeLower s = lowerASCII s).
Proof.
  refine (conj (canonical_lower s) (conj _ _)).
  - intros t Ht. rewrite !canonical_lower. exact Ht.
  - intros Ha. rewrite canonical_lower. unfold ToLower. rewrite Ha. reflexivity.
Qed.

(** X26: the canonical key of a non-empty name made of bytes below 127 is a
    valid header key. *)
Theorem canonical_key_is_valid (s : string) :
  s <> EmptyString ->
  Forall (fun c => byteVal c < 127) (list_ascii_of_string s) ->
  validHeaderKey (CanonicalHTTP2HeaderKey unicodeLower s) = true.
Proof.
  intros Hne Hb.
  assert (Ha : isASCII s = true).
  { unfold isASCII. apply forallb_forall. intros c Hc.
    rewrite List.Forall_forall in Hb. specialize (Hb c Hc). apply Z.ltb_lt. lia. }
  rewrite canonical_lower. unfold ToLower. rewrite Ha.
  destruct s as [| c0 rest0]; [contradiction |]. clear Hne Ha.
  unfold validHeaderKey. cbn [lowerASCII].
  change (forallb (fun c => negb ((127 <=? byteVal c) || isUpper c))
                  (list_ascii_of_string (lowerASCII (String c0 rest0))) = true).
  revert Hb. generalize (String c0 rest0). intros s.
  induction s as [| c rest IH]; intros Hb; [reflexivity |].
  cbn [lowerASCII list_ascii_of_string forallb] in *.
  inversion Hb as [| c' l' Hc Hrest]; subst.
  rewrite (IH Hrest), andb_true_r, isUpper_lowerByte, orb_false_r.
  assert (Hlow : (byteVal (lowerByte c) <? 127) = (byteVal c <? 127))
    by (clear; destruct c as [[] [] [] [] [] [] [] []]; reflexivity).
  apply negb_true_iff, Z.leb_gt, Z.ltb_lt. rewrite Hlow. apply Z.ltb_lt. exact Hc.
Qed.

(** X27: [Get] after [Set] and after [Del], whatever the case of the
    letters: a key with the same lower-case form reads the value just set,
    or nothing once deleted, and any other key reads as before. *)
Theorem get_after_set_and_del (h : gmap string (list string)) (key key' value : string) :
  Get unicodeLower (HeaderSet unicodeLower h key value) key' =
    (if bool_decide (ToLower unicodeLower key = ToLower unicodeLower key')
     then value else Get unicodeLower h key')
  /\ Get unicodeLower (Del unicodeLower h key) key' =
       (if bool_decide (ToLower unicodeLower key = ToLower unicodeLower key')
        then EmptyString else Get unicodeLower h key').
Proof.
  unfold Get, HeaderSet, Del. rewrite !canonical_lower.
  destruct (bool_decide (ToLower unicodeLower key = ToLower unicodeLower key')) eqn:E.
  - apply bool_decide_eq_true in E. rewrite E, lookup_insert_eq, lookup_delete_eq. auto.
  - apply bool_decide_eq_false in E.
    rewrite lookup_insert_ne, lookup_delete_ne by exact E. auto.
Qed.

(** The sum [Len] computes, when one key's values are replaced. *)
Lemma Len_insert (h : gmap string (list string)) k vv :
  Len (<[k := vv]> h) =
    Len h - Z.of_nat (length (default [] (h !! k))) + Z.of_nat (length vv).
Proof.
  assert (Hfresh : forall (m : gmap string (list string)) ww,
             m !! k = None -> Len (<[k := ww]> m) = Len m + Z.of_nat (length ww)).
  { intros m ww Hm. unfold Len. rewrite map_fold_insert_L; [reflexivity | | exact Hm].
    intros. lia. }
  destruct (h !! k) as [old |] eqn:E; cbn [default from_option id].
  - rewrite <- (insert_delete_eq h), (Hfresh (delete k h)) by apply lookup_delete_eq.
    rewrite <- (insert_delete_id h k old E) at 2.
    rewrite (Hfresh (delete k h)) by apply lookup_delete_eq. lia.
  - rewrite (Hfresh h vv E). cbn [length]. lia.
Qed.

(** X28: [Add] appends one value under the canonical key and touches
    nothing else, and panics in two cases only.  [Add] panics exactly when
    the key is empty, or the [Header] is nil and the key does not start
    with [':'].  A key that starts with [':'] is ignored, on a nil
    [Header] too.  Otherwise, on an allocated [Header], the values of the
    canonical key (the lower-cased key) grow by the new value at the end,
    [Len] grows by one and every other key keeps its values. *)
Theorem Add_appends_one (h : Nilable.Header) (key value : string) :
  (Nilable.Add unicodeLower h key value = None <->
     key = EmptyString \/ (h = None /\ startsWithColon key = false))
  /\ (startsWithColon key = true -> Nilable.Add unicodeLower h key value = Some h)
  /\ (key <> EmptyString -> startsWithColon key = false -> h <> None ->
      exists h',
        Nilable.Add unicodeLower h key value = Some h'
        /\ h' <> None
        /\ Nilable.values h' (ToLower unicodeLower key) =
             app (Nilable.values h (ToLower unicodeLower key)) [value]
        /\ (forall k, k <> ToLower unicodeLower key ->
                      Nilable.values h' k = Nilable.values h k)
        /\ Nilable.Len h' = Nilable.Len h + 1).
Proof.
  refine (conj _ (conj _ _)).
  - destruct key as [| c rest]; cbn [Nilable.Add startsWithColon].
    + split; [intros _; left; reflexivity | reflexivity].
    + destruct (Ascii.eqb c ":"); [| destruct h as [m |]]; split; intros H;
        try discriminate H; try (right; split; reflexivity); try reflexivity;
        destruct H as [H | [H1 H2]]; discriminate.
  - destruct key as [| c rest]; cbn [startsWithColon Nilable.Add]; [discriminate |].
    intros ->. reflexivity.
  - intros Hne Hc Hh. destruct key as [| c rest]; [contradiction |].
    destruct h as [m |]; [| contradiction].
    cbn [startsWithColon] in Hc. cbn [Nilable.Add]. rewrite Hc, canonical_lower.
    eexists. refine (conj eq_refl (conj _ (conj _ (conj _ _)))).
    + discriminate.
    + cbn [Nilable.values]. rewrite lookup_insert_eq. reflexivity.
    + intros k Hk. cbn [Nilable.values]. rewrite lookup_insert_ne by congruence. reflexivity.
    + cbn [Nilable.Len]. fold (Len (<[ToLower unicodeLower (String c rest) :=
                                         app (default [] (m !! ToLower unicodeLower (String c rest)))
                                             [value]]> m)).
      fold (Len m). rewrite Len_insert, length_app. cbn [length]. lia.
Qed.

(** X29: [add] accepts only what a header block may hold and keeps what it
    built: on a map whose keys are all valid, with every [':'] key one of
    the five pseudo-headers, a call that returns no error had a valid key,
    appended the value under that very key and left such a map again (a
    pseudo-header is taken only while the map holds at most five values); a
    call that returns an error leaves the map as it was. *)
Theorem add_keeps_keys_valid (h h' : gmap string (list string)) (key value : string)
    (err : option MalformedError) :
  wellKeyed h ->
  add h key value = Returned h' err ->
  wellKeyed h'
  /\ (err = None ->
        validHeaderKey key = true
        /\ h' = <[key := app (default [] (h !! key)) [value]]> h
        /\ (startsWithColon key = true -> key ∈ pseudoHeaderNames /\ Len h <= 5))
  /\ (err <> None -> h' = h /\ err = Some errMalformedHeader).
Proof.
  intros Hwk Hrun. unfold add in Hrun. destruct key as [| c rest]; [discriminate Hrun |].
  cbn [startsWithColon].
  destruct (Ascii.eqb c ":") eqn:Ec; cbn [andb] in Hrun.
  - destruct (Z.ltb_spec 5 (Len h)) as [Hlen | Hlen].
    { inversion Hrun; subst. refine (conj Hwk (conj _ _)); [discriminate | auto]. }
    destruct (bool_decide (String c rest ∈ pseudoHeaderNames)) eqn:Ep; cbn [negb] in Hrun.
    2:{ inversion Hrun; subst. refine (conj Hwk (conj _ _)); [discriminate | auto]. }
    apply bool_decide_eq_true in Ep.
    destruct (validHeaderKey (String c rest)) eqn:Ev; cbn [negb] in Hrun.
    2:{ inversion Hrun; subst. refine (conj Hwk (conj _ _)); [discriminate | auto]. }
    inversion Hrun; subst. refine (conj _ (conj _ _)).
    + apply map_Forall_insert_2; [| exact Hwk]. cbn [startsWithColon]. auto.
    + intros _. auto.
    + intros H. contradiction.
  - destruct (validHeaderKey (String c rest)) eqn:Ev; cbn [negb] in Hrun.
    2:{ inversion Hrun; subst. refine (conj Hwk (conj _ _)); [discriminate | auto]. }
    inversion Hrun; subst. refine (conj _ (conj _ _)).
    + apply map_Forall_insert_2; [| exact Hwk]. cbn [startsWithColon]. rewrite Ec.
      split; [exact Ev | discriminate].
    + intros _. refine (conj eq_refl (conj eq_refl _)). discriminate.
    + intros H. contradiction.
Qed.

Lemma add_keeps_keys_valid_witness :
  wellKeyed (<[":path" := ["/"]]> ∅).
Proof.
  apply (add_keeps_keys_valid ∅ (<[":path" := ["/"]]> ∅) ":path" "/" None).
  - apply map_Forall_empty.
  - reflexivity.
Defined.

Section Lowering.

Hypothesis unicodeLower_noUpper :
  forall s, isASCII s = false -> noUpper (unicodeLower s) = true.
Hypothesis unicodeLower_idempotent :
  forall s, isASCII s = false -> isASCII (unicodeLower s) = false ->
            unicodeLower (unicodeLower s) = unicodeLower s.

(** A canonical key is its own canonical key. *)
Lemma canonical_fixed s :
  CanonicalHTTP2HeaderKey unicodeLower (CanonicalHTTP2HeaderKey unicodeLower s) =
    CanonicalHTTP2HeaderKey unicodeLower s.
Proof.
  rewrite !canonical_lower.
  apply (ToLower_idempotent unicodeLower unicodeLower_noUpper unicodeLower_idempotent).
Qed.

(** [Add] and the loops built on it write under the canonical key only,
    and not at all for a key that starts with [':']. *)
Lemma Add_frame (h : gmap string (list string)) (k v : string)
    (h' : gmap string (list string)) (q : string) :
  Add unicodeLower h k v = Some h' ->
  (q <> CanonicalHTTP2HeaderKey unicodeLower k -> h' !! q = h !! q)
  /\ (startsWithColon k = true -> h' = h).
Proof.
  destruct k as [| c rest]; cbn [Add startsWithColon]; [discriminate |].
  destruct (Ascii.eqb c ":"); intros H;
    match type of H with
    | Some ?x = Some _ => assert (E : x = h') by congruence; subst h'; clear H
    end.
  - split; intros _; reflexivity.
  - split; [| intros Hc; discriminate Hc]. intros Hq. apply lookup_insert_ne. congruence.
Qed.

Lemma addValues_frame (h : gmap string (list string)) (k : string) (vv : list string)
    (h' : gmap string (list string)) (q : string) :
  addValues unicodeLower h k vv = Some h' ->
  (q <> CanonicalHTTP2HeaderKey unicodeLower k -> h' !! q = h !! q)
  /\ (startsWithColon k = true -> h' = h).
Proof.
  revert h. induction vv as [| v rest IH]; cbn [addValues]; intros h H.
  - assert (h' = h) by congruence. subst h'. split; intros _; reflexivity.
  - destruct (Add unicodeLower h k v) as [h1 |] eqn:E; [| discriminate H].
    destruct (Add_frame _ _ _ _ q E) as [Ha1 Ha2]. destruct (IH h1 H) as [Hb1 Hb2]. split.
    + intros Hq. rewrite (Hb1 Hq). apply Ha1, Hq.
    + intros Hc. rewrite (Hb2 Hc). apply Ha2, Hc.
Qed.

Lemma addCookies_frame (h : gmap string (list string)) (k : string) (vv : list string)
    (h' : gmap string (list string)) (q : string) :
  addCookies unicodeLower TrimSpace h k vv = Some h' ->
  q <> CanonicalHTTP2HeaderKey unicodeLower k -> h' !! q = h !! q.
Proof.
  intros H Hq. revert h H. induction vv as [| v rest IH]; cbn [addCookies]; intros h H.
  - assert (h' = h) by congruence. subst h'. reflexivity.
  - match type of H with
    | match (if ?b then _ else _) with _ => _ end = _ => destruct b
    end.
    all: match type of H with
         | match ?r with _ => _ end = _ => destruct r as [h1 |] eqn:E; [| discriminate H]
         end.
    all: rewrite (IH h1 H).
    + apply (addValues_frame _ _ _ _ q E), Hq.
    + apply (Add_frame _ _ _ _ q E), Hq.
Qed.

(** X30: [addHeader] never stores a forbidden header and never touches a
    pseudo-header: whatever [addHeader] returns, the keys [connection],
    [keep-alive], [proxy-connection], [transfer-encoding], [host] and
    [upgrade] and every key that starts with [':'] hold in the map what
    they held before the call. *)
Theorem addHeader_skips_forbidden (header : list (string * list string))
    (h h' : gmap string (list string)) (err : option MalformedError) (q : string) :
  addHeader unicodeLower TrimSpace h header = Returned h' err ->
  badHeader q = true \/ startsWithColon q = true ->
  h' !! q = h !! q.
Proof.
  intros Hrun Hq. revert h Hrun.
  induction header as [| [k0 vv] rest IH]; cbn [addHeader]; intros h Hrun.
  - assert (h' = h) by congruence. subst h'. reflexivity.
  - pose proof (canonical_fixed k0) as Hfix.
    set (k := CanonicalHTTP2HeaderKey unicodeLower k0) in *.
    destruct (badHeader k) eqn:Ebad; [apply IH, Hrun |].
    assert (Hstep : forall h1,
               addValues unicodeLower h k vv = Some h1 -> h1 !! q = h !! q).
    { intros h1 E. destruct (addValues_frame _ _ _ _ q E) as [Hother Hcolon].
      destruct (startsWithColon k) eqn:Ek; [rewrite (Hcolon eq_refl); reflexivity |].
      apply Hother. rewrite Hfix. intros Heq. rewrite Heq in Hq.
      destruct Hq as [Hq | Hq]; [rewrite Ebad in Hq | rewrite Ek in Hq]; discriminate Hq. }
    destruct (bool_decide (k = "cookie")) eqn:Ecookie.
    + apply bool_decide_eq_true in Ecookie.
      destruct (addCookies unicodeLower TrimSpace h k vv) as [h1 |] eqn:E; [| discriminate Hrun].
      rewrite (IH h1 Hrun). apply (addCookies_frame _ _ _ _ q E).
      rewrite Hfix, Ecookie. intros Heq. rewrite Heq in Hq.
      destruct Hq as [Hq | Hq]; discriminate Hq.
    + destruct (bool_decide (k = "te") && negb (bool_decide (length vv = 1%nat))).
      * destruct vv as [| v0 vs]; [discriminate Hrun |].
        destruct (negb (bool_decide (ToLower unicodeLower v0 = "trailers"))).
        -- assert (h' = h) by congruence. subst h'. reflexivity.
        -- destruct (addValues unicodeLower h k (v0 :: vs)) as [h1 |] eqn:E; [| discriminate Hrun].
           rewrite (IH h1 Hrun). apply Hstep. reflexivity.
      * destruct (addValues unicodeLower h k vv) as [h1 |] eqn:E; [| discriminate Hrun].
        rewrite (IH h1 Hrun). apply Hstep. reflexivity.
Qed.

End Lowering.

End HeaderMapFacts.

(** The witnesses below take the lowering of the ASCII letters as the
    stand-in for the Unicode tables of [strings.ToLower]. *)
Lemma canonical_key_is_valid_witness :
  Header.validHeaderKey
    (Header.CanonicalHTTP2HeaderKey Header.lowerASCII "X-Request-ID"%string) = true.
Proof.
  apply (canonical_key_is_valid Header.lowerASCII "X-Request-ID"%string); [discriminate |].
  repeat constructor.
Defined.

Lemma Add_appends_one_witness :
  exists h',
    Header.Nilable.Add Header.lowerASCII (Some ∅) "Accept"%string "*/*"%string = Some h'
    /\ Header.Nilable.values h' "accept"%string = ["*/*"%string]
    /\ Header.Nilable.Len h' = (Header.Nilable.Len (Some ∅) + 1)%Z.
Proof.
  destruct (Add_appends_one Header.lowerASCII (Some ∅) "Accept"%string "*/*"%string)
    as (_ & _ & H).
  destruct H as (h' & E & _ & Hv & _ & HL); [discriminate | reflexivity | discriminate |].
  exists h'. refine (conj E (conj Hv HL)).
Defined.

(** A request header with [Connection] and [Accept] leaves no [connection]
    entry. *)
Lemma addHeader_skips_forbidden_witness :
  (<["accept"%string := ["*/*"%string]]> ∅ : gmap string (list string)) !! "connection"%string
  = (∅ : gmap string (list string)) !! "connection"%string.
Proof.
  apply (addHeader_skips_forbidden Header.lowerASCII Header.lowerASCII
           (fun s _ => noUpper_lowerASCII s)
           (fun s _ _ => lowerASCII_fixed _ (noUpper_lowerASCII s))
           [("Connection"%string, ["close"%string]); ("Accept"%string, ["*/*"%string])]
           ∅ _ None "connection"%string).
  - vm_compute. reflexivity.
  - left. reflexivity.
Defined.
